(** * Subscriptions, fetchers and the naive merge of go-concurrency-patterns

    A shallow embedding of the Go sources:
    - [Item], the results of a [Fetcher] and the time arithmetic they use;
    - [fakeFetcher.Fetch], the fetcher behind [Fetch(domain)];
    - [sub.loop] and [sub.Close] of improvedsub/subscription.go, the
      for-select loop;
    - [naiveSub.loop] and [naiveSub.Close] of naivesubscription.go;
    - [NaiveMerge] and [naiveMerge.Close];
    - [subscription.loop] of subscription.go, the loop that fetches inside
      its select, and [Subscribe(Fetch(domain))], a subscription with its
      fakeFetcher.

    Each goroutine program is a transition system: one transition per
    channel operation or per block of code between two of them, named after
    the Go statement; a value on a label is the value that passes through
    the channel, the result of a call to the fetcher or a reading of the
    clock.  Goroutines interleave, a select takes any case that is ready,
    and memory is sequentially consistent.  The fetcher of a subscription
    and the children of a merge are arbitrary: their results come with the
    labels.  Times are integer nanoseconds on one line, a Duration is an
    int64 and [Sub] saturates as in package time; the clock the loop of
    improvedsub reads at the head of an iteration does not run backwards. *)

From Stdlib Require Import ZArith DecimalString DecimalNat.
From stdpp Require Import gmap strings list.

Local Open Scope Z_scope.

(** ** Shared data *)

(** type Item struct { Title, Channel, GUID string } *)
Record Item := mkItem { Title : string; Channel : string; GUID : string }.

(** A Go [error] value; [None] is the nil error. *)
Definition error := string.

(** [time.Time] as integer nanoseconds on one time line, the zero
    [time.Time] being 0, and [time.Duration] as the int64 count of
    nanoseconds it is. *)
Definition Time := Z.
Definition Duration := Z.
Definition Millisecond : Duration := 1000000.
Definition Second : Duration := 1000 * Millisecond.

(** const minDuration Duration = -1 << 63; const maxDuration Duration = 1<<63 - 1 *)
Definition minDuration : Duration := - 2 ^ 63.
Definition maxDuration : Duration := 2 ^ 63 - 1.

(** t.After(u) and t.Add(d); t.Sub(u), which returns the maximum (or
    minimum) Duration when t - u does not fit in one. *)
Definition After (t u : Time) : bool := u <? t.
Definition Sub (t u : Time) : Duration :=
  let d := t - u in
  if maxDuration <? d then maxDuration
  else if d <? minDuration then minDuration
  else d.
Definition Add (t : Time) (d : Duration) : Time := t + d.

(** fmt.Sprintf("Item %d", n) for n = len(f.items) *)
Definition Sprintf_Item (n : nat) : string :=
  "Item " +:+ NilEmpty.string_of_uint (Nat.to_uint n).

(** ** Runs of a transition system *)

Section runs.
Context {state event : Type} (step : state → event → option state).

(** The transitions of a trace one after the other, [None] when one of
    them is not enabled. *)
Definition run_of (s : state) (evs : list event) : option state :=
  foldl (fun o ev => o ≫= fun s => step s ev) (Some s) evs.

End runs.

(** ** fakeFetcher *)

Module fakeFetcher.

(** type fakeFetcher struct { channel string; items []Item } *)
Record t := mk { channel : string; items : list Item }.

(** func fakeFetch(domain string) Fetcher *)
Definition fakeFetch (domain : string) : t := {| channel := domain; items := [] |}.

(** What one call reads from outside the receiver: the package variable
    [FakeDuplicates], the clock and the value of [rand.Intn(5)]. *)
Record env := mkEnv { FakeDuplicates : bool; now : Time; Intn5 : Z }.

(** The item built by the call made when [n] items were generated before. *)
Definition new_item (channel : string) (n : nat) : Item :=
  let item := {| Channel := channel; Title := Sprintf_Item n; GUID := "" |} in
  {| Channel := Channel item; Title := Title item;
     GUID := (Channel item +:+ "/") +:+ Title item |}.

(** func (f *fakeFetcher) Fetch() (items []Item, next time.Time, err error) *)
Definition Fetch (e : env) (f : t) : (list Item * Time * option error) * t :=
  let next := Add (now e) (Intn5 e * 500 * Millisecond) in
  let item := new_item (channel f) (length (items f)) in
  let f' := {| channel := channel f; items := items f ++ [item] |} in
  let items := if FakeDuplicates e then items f' else [item] in
  ((items, next, None), f').

(** The receiver after a sequence of calls. *)
Definition after_calls (es : list env) (f : t) : t :=
  foldl (fun f e => snd (Fetch e f)) f es.

End fakeFetcher.

(** ** sub: the for-select subscription (improvedsub/subscription.go) *)

Module sub.

(** const maxPending = 10 *)
Definition maxPending : nat := 10.

(** type fetchResult struct { fetched []Item; next time.Time; err error } *)
Module fetchResult.
Record t := mk { fetched : list Item; next : Time; err : option error }.
End fetchResult.

(** Where the loop goroutine stands. *)
Inductive loop_pc :=
| Select          (* blocked in the select statement of the current iteration *)
| SendErr         (* case errc := <-s.closing taken; at errc <- err *)
| CloseUpdates    (* at close(s.updates) *)
| Returned.       (* loop has returned *)

(** Where the goroutine calling Close stands. *)
Inductive close_pc :=
| NotCalled
| SendClosing                    (* at s.closing <- errc *)
| RecvErr                        (* at <-errc *)
| Closed (e : option error).     (* Close returned e *)

(** The locals of loop, the channels it uses, the fetch goroutines it
    started and the two clients (the reader of Updates and the caller of
    Close). *)
Record state := mkState {
  pending : list Item;
  next : Time;
  err : option error;
  seen : gmap string bool;
  (* nil, or a channel made with capacity 1 and what it buffers *)
  fetchDone : option (list fetchResult.t);
  at_ : loop_pc;
  (* the latest reading of the clock the loop has kept: the time received
     from startFetch, or time.Now() of a failure branch; the reading at the
     head of a later iteration is not earlier *)
  clock : Time;
  (* fetch goroutines started and not yet finished *)
  fetching : nat;
  (* s.updates: closed or not, and the items received from it, oldest first *)
  updates_closed : bool;
  delivered : list Item;
  closer : close_pc }.

(** func Subscribe(fetcher Fetcher) Subscription, and the declarations at
    the head of loop.  The clock reads no time before the zero time.Time. *)
Definition Subscribe : state :=
  {| pending := []; next := 0; err := None; seen := ∅; fetchDone := None;
     at_ := Select; clock := 0; fetching := 0%nat; updates_closed := false;
     delivered := []; closer := NotCalled |}.

(** var fetchDelay time.Duration
    if now := time.Now(); next.After(now) { fetchDelay = next.Sub(now) } *)
Definition fetchDelay (next now : Time) : Duration :=
  if After next now then Sub next now else 0.

(** for _, item := range fetched {
      if !seen[item.GUID] { pending = append(pending, item); seen[item.GUID] = true } } *)
Fixpoint enqueue (fetched pending : list Item) (seen : gmap string bool)
    : list Item * gmap string bool :=
  match fetched with
  | [] => (pending, seen)
  | item :: rest =>
      if negb (default false (seen !! GUID item))
      then enqueue rest (pending ++ [item]) (<[GUID item := true]> seen)
      else enqueue rest pending seen
  end.

#[global] Instance Item_eq_dec : EqDecision Item.
Proof. solve_decision. Defined.

#[global] Instance fetchResult_eq_dec : EqDecision fetchResult.t.
Proof. solve_decision. Defined.

(** The transitions: each is one channel operation, named by the Go
    statement that performs it.  A value carried by the label is the value
    that passes through the channel, or a reading of the clock. *)
Inductive event :=
| CallClose                                   (* a client enters Close() *)
| RecvClosing                                 (* case errc := <-s.closing, with s.closing <- errc *)
| SendErrc                                    (* errc <- err, with return <-errc *)
| DoCloseUpdates                              (* close(s.updates); return *)
| StartFetch (now fired : Time)               (* case <-startFetch: the timer armed at now fires at fired *)
| FetchReturns (r : fetchResult.t)            (* the fetch goroutine: fetchDone <- fetchResult{...} *)
| FetchDone (r : fetchResult.t) (now : Time)  (* case result := <-fetchDone; now is time.Now() of the failure branch *)
| SendUpdate.                                 (* case updates <- first, with a receive by the consumer *)

Definition step (s : state) (ev : event) : option state :=
  match ev with
  | CallClose =>
      (* Close is call-once: a second caller would block on s.closing forever *)
      match closer s with
      | NotCalled =>
          Some {| pending := pending s; next := next s; err := err s; seen := seen s;
                  fetchDone := fetchDone s; at_ := at_ s;
                  clock := clock s; fetching := fetching s;
                  updates_closed := updates_closed s; delivered := delivered s;
                  closer := SendClosing |}
      | _ => None
      end
  | RecvClosing =>
      match at_ s, closer s with
      | Select, SendClosing =>
          Some {| pending := pending s; next := next s; err := err s; seen := seen s;
                  fetchDone := fetchDone s; at_ := SendErr;
                  clock := clock s; fetching := fetching s;
                  updates_closed := updates_closed s; delivered := delivered s;
                  closer := RecvErr |}
      | _, _ => None
      end
  | SendErrc =>
      match at_ s, closer s with
      | SendErr, RecvErr =>
          Some {| pending := pending s; next := next s; err := err s; seen := seen s;
                  fetchDone := fetchDone s; at_ := CloseUpdates;
                  clock := clock s; fetching := fetching s;
                  updates_closed := updates_closed s; delivered := delivered s;
                  closer := Closed (err s) |}
      | _, _ => None
      end
  | DoCloseUpdates =>
      match at_ s with
      | CloseUpdates =>
          Some {| pending := pending s; next := next s; err := err s; seen := seen s;
                  fetchDone := fetchDone s; at_ := Returned;
                  clock := clock s; fetching := fetching s;
                  updates_closed := true; delivered := delivered s;
                  closer := closer s |}
      | _ => None
      end
  | StartFetch now fired =>
      (* if fetchDone == nil && len(pending) < maxPending { startFetch = time.After(fetchDelay) } *)
      match at_ s, fetchDone s with
      | Select, None =>
          (* now is not earlier than the latest reading kept: the clock
             does not run backwards *)
          if (length (pending s) <? maxPending)%nat
             && ((clock s <=? now) && (Add now (fetchDelay (next s) now) <=? fired))
          then
            (* fetchDone = make(chan fetchResult, 1); go func() {...}() *)
            Some {| pending := pending s; next := next s; err := err s; seen := seen s;
                    fetchDone := Some []; at_ := Select;
                    clock := fired; fetching := S (fetching s);
                    updates_closed := updates_closed s; delivered := delivered s;
                    closer := closer s |}
          else None
      | _, _ => None
      end
  | FetchReturns r =>
      (* a send on a nil channel or on a full buffer blocks *)
      match fetching s, fetchDone s with
      | S n, Some buf =>
          if (length buf <? 1)%nat
          then Some {| pending := pending s; next := next s; err := err s; seen := seen s;
                       fetchDone := Some (buf ++ [r]); at_ := at_ s;
                       clock := clock s; fetching := n;
                       updates_closed := updates_closed s; delivered := delivered s;
                       closer := closer s |}
          else None
      | _, _ => None
      end
  | FetchDone r now =>
      match at_ s, fetchDone s with
      | Select, Some (result :: _) =>
          if decide (r = result) then
            (* fetchDone = nil; fetched := result.fetched; next, err = result.next, result.err *)
            match fetchResult.err result with
            | Some e =>
                (* next = time.Now().Add(10 * time.Second); break *)
                Some {| pending := pending s; next := Add now (10 * Second);
                        err := Some e; seen := seen s;
                        fetchDone := None; at_ := Select;
                        clock := now; fetching := fetching s;
                        updates_closed := updates_closed s; delivered := delivered s;
                        closer := closer s |}
            | None =>
                let '(pending', seen') :=
                  enqueue (fetchResult.fetched result) (pending s) (seen s) in
                Some {| pending := pending'; next := fetchResult.next result;
                        err := None; seen := seen';
                        fetchDone := None; at_ := Select;
                        clock := clock s; fetching := fetching s;
                        updates_closed := updates_closed s; delivered := delivered s;
                        closer := closer s |}
            end
          else None
      | _, _ => None
      end
  | SendUpdate =>
      (* if len(pending) > 0 { first = pending[0]; updates = s.updates }: with an
         empty queue updates is nil and the case is never ready *)
      match at_ s, pending s with
      | Select, first :: rest =>
          Some {| pending := rest; next := next s; err := err s; seen := seen s;
                  fetchDone := fetchDone s; at_ := Select;
                  clock := clock s; fetching := fetching s;
                  updates_closed := updates_closed s;
                  delivered := delivered s ++ [first];
                  closer := closer s |}
      | _, _ => None
      end
  end.

Definition run : state → list event → option state := run_of step.

(** The fetch results the loop received, in order. *)
Definition processed (evs : list event) : list fetchResult.t :=
  omap (fun ev => match ev with FetchDone r _ => Some r | _ => None end) evs.

(** The items of the successful ones among them, in order. *)
Definition accepted (rs : list fetchResult.t) : list Item :=
  concat ((fun r => match fetchResult.err r with
                    | None => fetchResult.fetched r
                    | Some _ => []
                    end) <$> rs).

(** The error of the most recently received fetch result. *)
Definition last_result_err (rs : list fetchResult.t) : option error :=
  match last rs with
  | Some r => fetchResult.err r
  | None => None
  end.

(** The specification's reading of "last error": the most recent failure
    among the fetch results received. *)
Definition most_recent_failure (rs : list fetchResult.t) : option error :=
  last (omap fetchResult.err rs).

(** The specification's "each distinct identity once, in first-seen order":
    every item that has an earlier item of the same GUID is dropped. *)
Fixpoint first_seen_order (l : list Item) : list Item :=
  match l with
  | [] => []
  | x :: l' => x :: filter (fun y => GUID y ≠ GUID x) (first_seen_order l')
  end.

(** The accepted batches of a trace hold at most [k] items each. *)
Definition batches_at_most (k : nat) (evs : list event) : Prop :=
  ∀ r, r ∈ processed evs → fetchResult.err r = None →
       (length (fetchResult.fetched r) ≤ k)%nat.

(** *** Invariants of the loop *)

(** [seen] holds exactly the GUIDs of the items of [l]. *)
Definition seen_of (seen : gmap string bool) (l : list Item) : Prop :=
  ∀ g, default false (seen !! g) = true ↔ g ∈ GUID <$> l.

(** The fetch goroutine and its channel: a goroutine is alive or its result
    is buffered exactly while fetchDone is not nil, and the queue had room
    when it was started. *)
Definition fetch_inv (s : state) : Prop :=
  match fetchDone s with
  | None => fetching s = 0%nat
  | Some buf => (fetching s + length buf = 1)%nat
                ∧ (length (pending s) < maxPending)%nat
  end.

(** The queue: what was enqueued so far is the first-seen-order list of the
    accepted items, and [seen] holds its GUIDs. *)
Definition queue_inv (evs : list event) (s : state) : Prop :=
  delivered s ++ pending s = first_seen_order (accepted (processed evs))
  ∧ seen_of (seen s) (delivered s ++ pending s).

(** Closing: the error variable is the error of the last result received;
    the loop and the caller of Close move in step; s.updates is closed
    exactly when the loop has returned. *)
Definition close_inv (evs : list event) (s : state) : Prop :=
  err s = last_result_err (processed evs)
  ∧ match at_ s with
    | Select => closer s = NotCalled ∨ closer s = SendClosing
    | SendErr => closer s = RecvErr
    | CloseUpdates | Returned => closer s = Closed (err s)
    end
  ∧ updates_closed s = match at_ s with Returned => true | _ => false end.

End sub.

(** ** naiveSub: the first subscription (naivesubscription.go) *)

Module naiveSub.

(** Where the loop goroutine stands. *)
Inductive loop_pc :=
| Top                                         (* at if s.closed *)
| Fetching                                    (* inside s.fetcher.Fetch() *)
| Sleeping (d : Duration)                     (* inside time.Sleep(d) *)
| Sending (items : list Item) (next : Time)   (* in the range loop, items still to send *)
| Returned.                                   (* loop has returned *)

(** type naiveSub struct { fetcher Fetcher; updates chan Item; closed bool; err error },
    with the loop goroutine and the clients. *)
Record state := mkState {
  closed : bool;
  err : option error;
  at_ : loop_pc;
  (* s.updates: closed or not, and the items received from it, oldest first *)
  updates_closed : bool;
  delivered : list Item;
  (* what the calls of Close returned, oldest first *)
  close_results : list (option error) }.

(** func NaiveSubscribe(fetcher Fetcher) Subscription *)
Definition NaiveSubscribe : state :=
  {| closed := false; err := None; at_ := Top; updates_closed := false;
     delivered := []; close_results := [] |}.

Inductive event :=
| Close                                   (* a client runs Close(): s.closed = true; return s.err *)
| Check                                   (* if s.closed { close(s.updates); return }, else Fetch is called *)
| FetchReturns (items : list Item) (next : Time) (err : option error)
                                          (* items, next, err := s.fetcher.Fetch() *)
| SendUpdate                              (* s.updates <- item, with a receive by the consumer *)
| RangeDone (now : Time)                  (* the range is over; if now := time.Now(); next.After(now) {...} *)
| Wake.                                   (* time.Sleep returns *)

Definition step (s : state) (ev : event) : option state :=
  match ev with
  | Close =>
      Some {| closed := true; err := err s; at_ := at_ s;
              updates_closed := updates_closed s; delivered := delivered s;
              close_results := close_results s ++ [err s] |}
  | Check =>
      match at_ s with
      | Top =>
          if closed s
          then Some {| closed := closed s; err := err s; at_ := Returned;
                       updates_closed := true; delivered := delivered s;
                       close_results := close_results s |}
          else Some {| closed := closed s; err := err s; at_ := Fetching;
                       updates_closed := updates_closed s; delivered := delivered s;
                       close_results := close_results s |}
      | _ => None
      end
  | FetchReturns items next e =>
      match at_ s with
      | Fetching =>
          match e with
          | Some _ =>
              (* s.err = err; time.Sleep(10 * time.Second); continue *)
              Some {| closed := closed s; err := e; at_ := Sleeping (10 * Second);
                      updates_closed := updates_closed s; delivered := delivered s;
                      close_results := close_results s |}
          | None =>
              Some {| closed := closed s; err := err s; at_ := Sending items next;
                      updates_closed := updates_closed s; delivered := delivered s;
                      close_results := close_results s |}
          end
      | _ => None
      end
  | SendUpdate =>
      match at_ s with
      | Sending (item :: rest) next =>
          Some {| closed := closed s; err := err s; at_ := Sending rest next;
                  updates_closed := updates_closed s;
                  delivered := delivered s ++ [item];
                  close_results := close_results s |}
      | _ => None
      end
  | RangeDone now =>
      match at_ s with
      | Sending [] next =>
          Some {| closed := closed s; err := err s;
                  at_ := if After next now then Sleeping (Sub next now) else Top;
                  updates_closed := updates_closed s; delivered := delivered s;
                  close_results := close_results s |}
      | _ => None
      end
  | Wake =>
      match at_ s with
      | Sleeping _ =>
          Some {| closed := closed s; err := err s; at_ := Top;
                  updates_closed := updates_closed s; delivered := delivered s;
                  close_results := close_results s |}
      | _ => None
      end
  end.

Definition run : state → list event → option state := run_of step.

(** The failures among the results of Fetch, oldest first. *)
Definition fetch_failures (evs : list event) : list error :=
  omap (fun ev => match ev with FetchReturns _ _ e => e | _ => None end) evs.

End naiveSub.

(** ** naiveMerge *)

Module naiveMerge.

(** A child Subscription, by what its interface shows. *)
Record child := mkChild {
  close_called : bool;                    (* its Close() has been entered *)
  close_result : option (option error);   (* its Close() has returned this *)
  stream_closed : bool }.                 (* its Updates() channel is closed *)

(** Where the goroutine started for one child stands. *)
Inductive forwarder :=
| Receiving               (* at for it := range s.Updates() *)
| Forwarding (it : Item)  (* at m.updates <- it *)
| Exited.                 (* the range ended and the goroutine returned *)

(** Where the goroutine calling naiveMerge.Close stands. *)
Inductive close_pc :=
| NotCalled
| Ranging (i : nat) (err : option error)  (* in for _, sub := range m.subs, before m.subs[i] *)
| InChild (i : nat) (err : option error)  (* inside m.subs[i].Close() *)
| Returning (err : option error)          (* close(m.updates) done, at return *)
| Closed (err : option error).            (* Close returned err *)

Record state := mkState {
  subs : list child;
  forwarders : list forwarder;
  (* m.updates: closed or not, and the items received from it, oldest first *)
  updates_closed : bool;
  delivered : list Item;
  closer : close_pc;
  (* a goroutine panicked (send on closed channel) *)
  panicked : bool }.

(** func NaiveMerge(subs ...Subscription) Subscription, for n open children
    whose Close has not been called. *)
Definition NaiveMerge (n : nat) : state :=
  {| subs := replicate n (mkChild false None false);
     forwarders := replicate n Receiving;
     updates_closed := false; delivered := []; closer := NotCalled;
     panicked := false |}.

Inductive event :=
| ChildSends (i : nat) (it : Item)       (* child i sends it on its stream, received by its forwarder *)
| ChildClosesStream (i : nat)            (* child i closes its Updates() channel *)
| ForwarderReturns (i : nat)             (* forwarder i: the range ends on the closed stream *)
| Forward (i : nat)                      (* forwarder i: m.updates <- it ends, by a receive of the reader,
                                            or by a panic once m.updates is closed (close wakes the
                                            blocked senders, and each panics when it runs) *)
| CallClose                              (* a client enters naiveMerge.Close() *)
| CallChildClose                         (* sub.Close() is entered *)
| ChildCloseReturns (e : option error)   (* it returns e; if err == nil && e != nil { err = e } *)
| DoCloseUpdates                         (* the range is over: close(m.updates) *)
| CloseReturns.                          (* return *)

Definition step (s : state) (ev : event) : option state :=
  if panicked s then None else
  match ev with
  | ChildSends i it =>
      match subs s !! i, forwarders s !! i with
      | Some c, Some Receiving =>
          if stream_closed c then None
          else Some {| subs := subs s; forwarders := <[i := Forwarding it]> (forwarders s);
                       updates_closed := updates_closed s; delivered := delivered s;
                       closer := closer s; panicked := false |}
      | _, _ => None
      end
  | ChildClosesStream i =>
      (* a subscription closes its stream only once its Close was called *)
      match subs s !! i with
      | Some c =>
          if close_called c && negb (stream_closed c)
          then Some {| subs := <[i := mkChild true (close_result c) true]> (subs s);
                       forwarders := forwarders s;
                       updates_closed := updates_closed s; delivered := delivered s;
                       closer := closer s; panicked := false |}
          else None
      | None => None
      end
  | ForwarderReturns i =>
      match subs s !! i, forwarders s !! i with
      | Some c, Some Receiving =>
          if stream_closed c
          then Some {| subs := subs s; forwarders := <[i := Exited]> (forwarders s);
                       updates_closed := updates_closed s; delivered := delivered s;
                       closer := closer s; panicked := false |}
          else None
      | _, _ => None
      end
  | Forward i =>
      match forwarders s !! i with
      | Some (Forwarding it) =>
          if updates_closed s
          then Some {| subs := subs s; forwarders := forwarders s;
                       updates_closed := updates_closed s; delivered := delivered s;
                       closer := closer s; panicked := true |}
          else Some {| subs := subs s; forwarders := <[i := Receiving]> (forwarders s);
                       updates_closed := updates_closed s;
                       delivered := delivered s ++ [it];
                       closer := closer s; panicked := false |}
      | _ => None
      end
  | CallClose =>
      (* Close is called once *)
      match closer s with
      | NotCalled =>
          Some {| subs := subs s; forwarders := forwarders s;
                  updates_closed := updates_closed s; delivered := delivered s;
                  closer := Ranging 0 None; panicked := false |}
      | _ => None
      end
  | CallChildClose =>
      match closer s with
      | Ranging i err =>
          match subs s !! i with
          | Some c =>
              Some {| subs := <[i := mkChild true (close_result c) (stream_closed c)]> (subs s);
                      forwarders := forwarders s;
                      updates_closed := updates_closed s; delivered := delivered s;
                      closer := InChild i err; panicked := false |}
          | None => None
          end
      | _ => None
      end
  | ChildCloseReturns e =>
      match closer s with
      | InChild i err =>
          match subs s !! i with
          | Some c =>
              Some {| subs := <[i := mkChild (close_called c) (Some e) (stream_closed c)]> (subs s);
                      forwarders := forwarders s;
                      updates_closed := updates_closed s; delivered := delivered s;
                      closer := Ranging (S i)
                                  (match err, e with
                                   | None, Some _ => e
                                   | _, _ => err
                                   end);
                      panicked := false |}
          | None => None
          end
      | _ => None
      end
  | DoCloseUpdates =>
      match closer s with
      | Ranging i err =>
          match subs s !! i with
          | None =>
              Some {| subs := subs s; forwarders := forwarders s;
                      updates_closed := true; delivered := delivered s;
                      closer := Returning err; panicked := false |}
          | Some _ => None
          end
      | _ => None
      end
  | CloseReturns =>
      match closer s with
      | Returning err =>
          Some {| subs := subs s; forwarders := forwarders s;
                  updates_closed := updates_closed s; delivered := delivered s;
                  closer := Closed err; panicked := false |}
      | _ => None
      end
  end.

Definition run : state → list event → option state := run_of step.

(** The specification's "first non-nil error" of the children's close
    results, taken in the order of m.subs. *)
Fixpoint first_non_nil (rs : list (option error)) : option error :=
  match rs with
  | [] => None
  | Some e :: _ => Some e
  | None :: rs' => first_non_nil rs'
  end.


(** *** Invariant of Close *)

(** Close has closed the first [i] of the children [cs], in order, and
    [err] is the first non-nil error among their results. *)
Definition closing_inv (n : nat) (cs : list child) (i : nat) (err : option error) : Prop :=
  ∃ rs, length rs = i ∧ (i ≤ n)%nat
        ∧ close_result <$> cs = (Some <$> rs) ++ replicate (n - i) None
        ∧ err = first_non_nil rs.

(** m.updates is closed only by Close, after its range over m.subs. *)
Definition merge_inv (n : nat) (s : state) : Prop :=
  length (subs s) = n
  ∧ match closer s with
    | NotCalled => closing_inv n (subs s) 0 None ∧ updates_closed s = false
    | Ranging i err => closing_inv n (subs s) i err ∧ updates_closed s = false
    | InChild i err =>
        closing_inv n (subs s) i err ∧ (i < n)%nat ∧ updates_closed s = false
    | Returning err | Closed err =>
        closing_inv n (subs s) n err ∧ updates_closed s = true
    end.

End naiveMerge.

(** ** Concrete runs used as examples *)

Module scenario.
Import sub.

Definition A : Item := {| Title := "A"; Channel := "blog.golang.org"; GUID := "blog.golang.org/A" |}.
Definition B : Item := {| Title := "B"; Channel := "blog.golang.org"; GUID := "blog.golang.org/B" |}.
(** First fetch returns [A], the second [A, B]; both items are read. *)
Definition fetch1 : fetchResult.t := fetchResult.mk [A] (1 * Second) None.
Definition fetch2 : fetchResult.t := fetchResult.mk [A; B] (3 * Second) None.
Definition repeated : list event :=
  [ StartFetch 0 0; FetchReturns fetch1; FetchDone fetch1 0; SendUpdate;
    StartFetch 0 (1 * Second); FetchReturns fetch2; FetchDone fetch2 0; SendUpdate ].
(** A fetch of eleven new items into an empty queue. *)
Definition eleven : fetchResult.t :=
  fetchResult.mk (fakeFetcher.new_item "blog.golang.org" <$> seq 0 11) 0 None.
Definition big_batch : list event :=
  [ StartFetch 0 0; FetchReturns eleven; FetchDone eleven 0 ].
(** A failed fetch, a successful retry after the backoff, then Close. *)
Definition failed : fetchResult.t := fetchResult.mk [] 0 (Some "timeout").
Definition retry : fetchResult.t := fetchResult.mk [A] (20 * Second) None.
Definition fail_then_succeed : list event :=
  [ StartFetch 0 0; FetchReturns failed; FetchDone failed (1 * Second);
    StartFetch (2 * Second) (11 * Second); FetchReturns retry;
    FetchDone retry (12 * Second);
    CallClose; RecvClosing; SendErrc; DoCloseUpdates ].
(** The loop holds the result of a failed fetch in fetchDone. *)
Definition failure_buffered : list event :=
  [ StartFetch 0 0; FetchReturns failed ].
(** A fetch result asks for the next fetch 10^10 seconds (some 317 years)
    after the zero time. *)
Definition far : fetchResult.t := fetchResult.mk [A] (10000000000 * Second) None.
Definition far_future : list event :=
  [ StartFetch 0 0; FetchReturns far; FetchDone far 0 ].
(** naiveSub: a batch of two is being sent when Close is called. *)
Definition naive_sending : list naiveSub.event :=
  [ naiveSub.Check; naiveSub.FetchReturns [A; B] (1 * Second) None ].
(** naiveSub: a failed fetch, then a successful one whose item is read. *)
Definition naive_recovered : list naiveSub.event :=
  [ naiveSub.Check; naiveSub.FetchReturns [] 0 (Some "timeout"); naiveSub.Wake;
    naiveSub.Check; naiveSub.FetchReturns [A] 0 None; naiveSub.SendUpdate ].
(** naiveMerge of one child: the forwarder holds A when Close runs. *)
Definition merge_close_while_forwarding : list naiveMerge.event :=
  [ naiveMerge.ChildSends 0 A; naiveMerge.CallClose; naiveMerge.CallChildClose;
    naiveMerge.ChildCloseReturns None; naiveMerge.DoCloseUpdates;
    naiveMerge.CloseReturns ].
End scenario.


(** ** subscription: the first for-select loop (src/subscription.go) *)

Module subscription.

(** Where the loop goroutine stands. *)
Inductive loop_pc :=
| Select          (* blocked in the select statement of the current iteration *)
| InFetch         (* case <-startFetch taken; inside s.fetcher.Fetch() *)
| SendErr         (* case errc := <-s.closing taken; at errc <- err *)
| CloseUpdates    (* at close(s.updates) *)
| Returned.       (* loop has returned *)

(** The locals of loop, s.updates with its reader, and the caller of
    Close. *)
Record state := mkState {
  pending : list Item;
  next : Time;
  err : option error;
  at_ : loop_pc;
  (* s.updates: closed or not, and the items received from it, oldest first *)
  updates_closed : bool;
  delivered : list Item;
  closer : sub.close_pc }.

(** func Subscribe(fetcher Fetcher) Subscription, and the declarations at
    the head of loop. *)
Definition Subscribe : state :=
  {| pending := []; next := 0; err := None; at_ := Select;
     updates_closed := false; delivered := []; closer := sub.NotCalled |}.

Inductive event :=
| CallClose                          (* a client enters Close() *)
| RecvClosing                        (* case errc := <-s.closing, with s.closing <- errc *)
| SendErrc                           (* errc <- err, with return <-errc *)
| DoCloseUpdates                     (* close(s.updates); return *)
| StartFetch (now fired : Time)      (* case <-startFetch: the timer armed at now fires at fired *)
| FetchReturns (fetched : list Item) (next : Time) (err : option error) (now : Time)
                                     (* fetched, next, err = s.fetcher.Fetch(); now is
                                        time.Now() of the failure branch *)
| SendUpdate.                        (* case updates <- first, with a receive by the consumer *)

Definition step (s : state) (ev : event) : option state :=
  match ev with
  | CallClose =>
      match closer s with
      | sub.NotCalled =>
          Some {| pending := pending s; next := next s; err := err s; at_ := at_ s;
                  updates_closed := updates_closed s; delivered := delivered s;
                  closer := sub.SendClosing |}
      | _ => None
      end
  | RecvClosing =>
      match at_ s, closer s with
      | Select, sub.SendClosing =>
          Some {| pending := pending s; next := next s; err := err s; at_ := SendErr;
                  updates_closed := updates_closed s; delivered := delivered s;
                  closer := sub.RecvErr |}
      | _, _ => None
      end
  | SendErrc =>
      match at_ s, closer s with
      | SendErr, sub.RecvErr =>
          Some {| pending := pending s; next := next s; err := err s; at_ := CloseUpdates;
                  updates_closed := updates_closed s; delivered := delivered s;
                  closer := sub.Closed (err s) |}
      | _, _ => None
      end
  | DoCloseUpdates =>
      match at_ s with
      | CloseUpdates =>
          Some {| pending := pending s; next := next s; err := err s; at_ := Returned;
                  updates_closed := true; delivered := delivered s;
                  closer := closer s |}
      | _ => None
      end
  | StartFetch now fired =>
      (* startFetch := time.After(fetchDelay): armed in every iteration *)
      match at_ s with
      | Select =>
          if Add now (sub.fetchDelay (next s) now) <=? fired
          then Some {| pending := pending s; next := next s; err := err s; at_ := InFetch;
                       updates_closed := updates_closed s; delivered := delivered s;
                       closer := closer s |}
          else None
      | _ => None
      end
  | FetchReturns fetched next' e now =>
      match at_ s with
      | InFetch =>
          match e with
          | Some _ =>
              (* next = time.Now().Add(10 * time.Second); break *)
              Some {| pending := pending s; next := Add now (10 * Second); err := e;
                      at_ := Select;
                      updates_closed := updates_closed s; delivered := delivered s;
                      closer := closer s |}
          | None =>
              (* pending = append(pending, fetched...) *)
              Some {| pending := pending s ++ fetched; next := next'; err := None;
                      at_ := Select;
                      updates_closed := updates_closed s; delivered := delivered s;
                      closer := closer s |}
          end
      | _ => None
      end
  | SendUpdate =>
      match at_ s, pending s with
      | Select, first :: rest =>
          Some {| pending := rest; next := next s; err := err s; at_ := Select;
                  updates_closed := updates_closed s;
                  delivered := delivered s ++ [first];
                  closer := closer s |}
      | _, _ => None
      end
  end.

Definition run : state → list event → option state := run_of step.

(** The items of the successful fetches of a trace, in order. *)
Definition fetched_items (evs : list event) : list Item :=
  concat (omap (fun ev => match ev with
                          | FetchReturns fetched _ None _ => Some fetched
                          | _ => None
                          end) evs).

(** The errors of the fetches of a trace (nil for a success), in order. *)
Definition fetch_errs (evs : list event) : list (option error) :=
  omap (fun ev => match ev with
                  | FetchReturns _ _ e _ => Some e
                  | _ => None
                  end) evs.

(** n fetches of one item each, with nobody reading the stream. *)
Definition fill (it : Item) (n : nat) : list event :=
  mjoin (replicate n [StartFetch 0 0; FetchReturns [it] 0 None 0]).

End subscription.

(** ** Subscribe(Fetch(domain)): sub with a fakeFetcher as its fetcher *)

Module fetched_sub.

(** The subscription and the fetcher it owns. *)
Definition state : Type := sub.state * fakeFetcher.t.

(** Subscribe(Fetch(domain)), the shape in which func main builds its
    subscriptions, with the Subscribe of improvedsub/subscription.go. *)
Definition Subscribe_Fetch (domain : string) : state :=
  (sub.Subscribe, fakeFetcher.fakeFetch domain).

Inductive event :=
| Loop (ev : sub.event)            (* a transition of sub, the fetch goroutine's send apart *)
| Fetches (e : fakeFetcher.env).   (* the fetch goroutine: fetched, next, err := s.fetcher.Fetch()
                                      and fetchDone <- fetchResult{fetched, next, err} *)

Definition step (st : state) (ev : event) : option state :=
  match ev with
  | Loop (sub.FetchReturns _) => None
  | Loop ev => s' ← sub.step st.1 ev; Some (s', st.2)
  | Fetches e =>
      let '((fetched, next, err), f') := fakeFetcher.Fetch e st.2 in
      s' ← sub.step st.1 (sub.FetchReturns (sub.fetchResult.mk fetched next err));
      Some (s', f')
  end.

Definition run : state → list event → option state := run_of step.

(** What links the subscription to its fetcher after [m] fetch results
    were received: the fetcher has generated the items 0..m-1, and one more
    when a result waits in fetchDone; that result holds item m alone or the
    items 0..m. *)
Definition linked (domain : string) (st : state) : Prop :=
  let s := st.1 in
  let f := st.2 in
  let m := length (sub.delivered s ++ sub.pending s) in
  sub.delivered s ++ sub.pending s = fakeFetcher.new_item domain <$> seq 0 m
  ∧ sub.seen_of (sub.seen s) (sub.delivered s ++ sub.pending s)
  ∧ sub.err s = None
  ∧ fakeFetcher.channel f = domain
  ∧ match sub.fetchDone s with
    | Some (r :: _) =>
        fakeFetcher.items f = fakeFetcher.new_item domain <$> seq 0 (S m)
        ∧ sub.fetchResult.err r = None
        ∧ (sub.fetchResult.fetched r = [fakeFetcher.new_item domain m]
           ∨ sub.fetchResult.fetched r = fakeFetcher.new_item domain <$> seq 0 (S m))
    | _ => fakeFetcher.items f = fakeFetcher.new_item domain <$> seq 0 m
    end.

End fetched_sub.

(** ** Traces of naiveSub and naiveMerge *)

(** naiveSub: the items of the successful fetches of a trace, in order. *)
Definition naiveSub_fetched_items (evs : list naiveSub.event) : list Item :=
  concat (omap (fun ev => match ev with
                          | naiveSub.FetchReturns items _ None => Some items
                          | _ => None
                          end) evs).

(** naiveSub: the items of the batch still to send. *)
Definition naiveSub_to_send (s : naiveSub.state) : list Item :=
  match naiveSub.at_ s with
  | naiveSub.Sending items _ => items
  | _ => []
  end.

(** naiveMerge: the items child [i] sent on its stream, in order. *)
Definition naiveMerge_sent_by (i : nat) (evs : list naiveMerge.event) : list Item :=
  omap (fun ev => match ev with
                  | naiveMerge.ChildSends j it => if decide (j = i) then Some it else None
                  | _ => None
                  end) evs.

(** naiveMerge: the items the children sent, in order. *)
Definition naiveMerge_sent (evs : list naiveMerge.event) : list Item :=
  omap (fun ev => match ev with
                  | naiveMerge.ChildSends _ it => Some it
                  | _ => None
                  end) evs.

(** naiveMerge: the item a forwarder holds, at m.updates <- it. *)
Definition naiveMerge_held (fw : naiveMerge.forwarder) : list Item :=
  match fw with
  | naiveMerge.Forwarding it => [it]
  | _ => []
  end.

(** naiveMerge: the item held by the forwarder of child [i]. *)
Definition naiveMerge_held_by (i : nat) (s : naiveMerge.state) : list Item :=
  default [] (naiveMerge_held <$> naiveMerge.forwarders s !! i).

(** naiveMerge: the items held by the forwarders. *)
Definition naiveMerge_holding (s : naiveMerge.state) : list Item :=
  naiveMerge.forwarders s ≫= naiveMerge_held.

(** ** More concrete runs *)

Module scenario_more.

(** Subscribe(Fetch("blog.golang.org")) with FakeDuplicates set: two
    fetches, the second returning both items, then two reads. *)
Definition two_fetches : list fetched_sub.event :=
  [ fetched_sub.Loop (sub.StartFetch 0 0);
    fetched_sub.Fetches (fakeFetcher.mkEnv true 0 1);
    fetched_sub.Loop
      (sub.FetchDone
         (sub.fetchResult.mk [fakeFetcher.new_item "blog.golang.org" 0]
            (500 * Millisecond) None) 0);
    fetched_sub.Loop (sub.StartFetch 1 (500 * Millisecond));
    fetched_sub.Fetches (fakeFetcher.mkEnv true (500 * Millisecond) 0);
    fetched_sub.Loop
      (sub.FetchDone
         (sub.fetchResult.mk
            [fakeFetcher.new_item "blog.golang.org" 0;
             fakeFetcher.new_item "blog.golang.org" 1]
            (500 * Millisecond) None) 0);
    fetched_sub.Loop sub.SendUpdate; fetched_sub.Loop sub.SendUpdate ].

(** naiveSub: two fetches that both return A, and two reads. *)
Definition naive_repeated : list naiveSub.event :=
  [ naiveSub.Check; naiveSub.FetchReturns [scenario.A] 0 None; naiveSub.SendUpdate;
    naiveSub.RangeDone 0;
    naiveSub.Check; naiveSub.FetchReturns [scenario.A] 0 None; naiveSub.SendUpdate ].

(** naiveMerge of two children: child 1 sends B, child 0 sends A twice;
    B and the first A are read. *)
Definition merge_two : list naiveMerge.event :=
  [ naiveMerge.ChildSends 1 scenario.B; naiveMerge.ChildSends 0 scenario.A;
    naiveMerge.Forward 0; naiveMerge.Forward 1; naiveMerge.ChildSends 0 scenario.A ].

(** naiveMerge of two children, child 0 having sent A: child 1 sends B
    and Close closes child 0; nothing is read from the merged stream. *)
Definition merge_holding_A : naiveMerge.state :=
  default (naiveMerge.NaiveMerge 2)
    (naiveMerge.run (naiveMerge.NaiveMerge 2) [naiveMerge.ChildSends 0 scenario.A]).
Definition merge_no_reader : list naiveMerge.event :=
  [ naiveMerge.ChildSends 1 scenario.B; naiveMerge.CallClose;
    naiveMerge.CallChildClose; naiveMerge.ChildCloseReturns None ].

(** naiveMerge of one child: the forwarder holds A when Close closes
    m.updates, and its send panics before Close returns. *)
Definition merge_panic_before_return : list naiveMerge.event :=
  [ naiveMerge.ChildSends 0 scenario.A; naiveMerge.CallClose;
    naiveMerge.CallChildClose; naiveMerge.ChildCloseReturns None;
    naiveMerge.DoCloseUpdates; naiveMerge.Forward 0 ].

(** sub: Close is called and served while a fetch is in flight. *)
Definition close_during_fetch : list sub.event :=
  [ sub.StartFetch 0 0; sub.CallClose; sub.RecvClosing; sub.SendErrc;
    sub.DoCloseUpdates ].

(** src/subscription.go: a failed fetch, a successful retry, then Close. *)
Definition subscription_recovered : list subscription.event :=
  [ subscription.StartFetch 0 0;
    subscription.FetchReturns [] 0 (Some "timeout") (1 * Second);
    subscription.StartFetch (2 * Second) (11 * Second);
    subscription.FetchReturns [scenario.A] 0 None (12 * Second);
    subscription.CallClose; subscription.RecvClosing; subscription.SendErrc ].

End scenario_more.

(** * Theorems *)

(** ** fakeFetcher *)

Example Sprintf_Item_0 : Sprintf_Item 0 = "Item 0".
Proof. reflexivity. Qed.

Example Sprintf_Item_12 : Sprintf_Item 12 = "Item 12".
Proof. reflexivity. Qed.

(** The third call on Fetch("blog.golang.org") with FakeDuplicates set,
    after two calls without it. *)
Example fakeFetcher_third_call :
  let e := fakeFetcher.mkEnv false 0 3 in
  let f := fakeFetcher.after_calls [e; e] (fakeFetcher.fakeFetch "blog.golang.org") in
  fst (fakeFetcher.Fetch (fakeFetcher.mkEnv true 7 2) f)
  = ([ mkItem "Item 0" "blog.golang.org" "blog.golang.org/Item 0";
       mkItem "Item 1" "blog.golang.org" "blog.golang.org/Item 1";
       mkItem "Item 2" "blog.golang.org" "blog.golang.org/Item 2" ],
     7 + 1000 * Millisecond, None).
Proof. reflexivity. Qed.

Lemma fakeFetcher_after_calls_snoc es e f :
  fakeFetcher.after_calls (es ++ [e]) f
  = snd (fakeFetcher.Fetch e (fakeFetcher.after_calls es f)).
Proof. unfold fakeFetcher.after_calls. by rewrite foldl_app. Qed.

Lemma fakeFetcher_state_after_calls domain es :
  fakeFetcher.after_calls es (fakeFetcher.fakeFetch domain)
  = fakeFetcher.mk domain (fakeFetcher.new_item domain <$> seq 0 (length es)).
Proof.
  induction es as [|e es IH] using rev_ind; [done|].
  rewrite fakeFetcher_after_calls_snoc, IH. cbn.
  rewrite length_app, Nat.add_1_r, seq_S, fmap_app, length_fmap, length_seq.
  done.
Qed.


(** ** Runs *)

Section run_lemmas.
Context {state event : Type} (step : state → event → option state).

Lemma run_of_snoc s evs ev :
  run_of step s (evs ++ [ev]) = run_of step s evs ≫= fun s' => step s' ev.
Proof. unfold run_of. by rewrite foldl_app. Qed.

Lemma run_of_app s evs1 evs2 :
  run_of step s (evs1 ++ evs2) = run_of step s evs1 ≫= fun s' => run_of step s' evs2.
Proof.
  revert evs1. induction evs2 as [|ev evs2 IH] using rev_ind; intros evs1.
  - rewrite app_nil_r. destruct (run_of step s evs1); reflexivity.
  - rewrite app_assoc, !run_of_snoc, IH. destruct (run_of step s evs1); [|reflexivity].
    cbn. by rewrite run_of_snoc.
Qed.

Lemma run_of_cons s ev evs :
  run_of step s (ev :: evs) = step s ev ≫= fun s' => run_of step s' evs.
Proof. exact (run_of_app s [ev] evs). Qed.

(** Induction over the runs from a state: a property of the trace and of
    the state it reaches. *)
Lemma run_of_ind s0 (P : list event → state → Prop) :
  P [] s0 →
  (∀ evs s ev s', run_of step s0 evs = Some s → P evs s → step s ev = Some s' →
                  P (evs ++ [ev]) s') →
  ∀ evs s, run_of step s0 evs = Some s → P evs s.
Proof.
  intros H0 Hstep evs. induction evs as [|ev evs IH] using rev_ind; intros s Hrun.
  - cbn in Hrun. by simplify_eq.
  - rewrite run_of_snoc in Hrun.
    destruct (run_of step s0 evs) as [s1|] eqn:Hs1; [|done].
    cbn in Hrun. eauto.
Qed.

End run_lemmas.

(** ** sub *)

Section first_seen.
Implicit Types (l : list Item) (x : Item) (g : string).

Lemma guids_filter_ne g x l :
  g ∈ GUID <$> filter (fun y => GUID y ≠ GUID x) l ↔ g ≠ GUID x ∧ g ∈ GUID <$> l.
Proof.
  rewrite !list_elem_of_fmap. split.
  - intros (y & -> & Hy). apply list_elem_of_filter in Hy as [Hne Hy]. eauto.
  - intros (Hne & y & -> & Hy). exists y. split; [done|].
    by apply list_elem_of_filter.
Qed.

Lemma first_seen_order_guids l g :
  g ∈ GUID <$> sub.first_seen_order l ↔ g ∈ GUID <$> l.
Proof.
  induction l as [|x l IH]; [done|]. cbn.
  rewrite !elem_of_cons, guids_filter_ne, IH.
  destruct (decide (g = GUID x)); tauto.
Qed.

Lemma first_seen_order_NoDup l : NoDup (GUID <$> sub.first_seen_order l).
Proof.
  induction l as [|x l IH]; cbn; [constructor|].
  apply NoDup_cons. split.
  - rewrite guids_filter_ne. tauto.
  - eapply sublist_NoDup; [exact IH|].
    apply fmap_sublist, sublist_filter.
Qed.

Lemma first_seen_order_snoc l x :
  sub.first_seen_order (l ++ [x])
  = if decide (GUID x ∈ GUID <$> l) then sub.first_seen_order l
    else sub.first_seen_order l ++ [x].
Proof.
  induction l as [|y l IH]; cbn.
  - case_decide as H; [by apply elem_of_nil in H|done].
  - rewrite IH. clear IH.
    destruct (decide (GUID x ∈ GUID <$> l)) as [Hin|Hin].
    + rewrite decide_True; [done|]. by right.
    + rewrite filter_app.
      destruct (decide (GUID x = GUID y)) as [Heq|Hne].
      * rewrite decide_True by (rewrite Heq; left).
        rewrite (filter_cons_False _ x) by (intros ?; done).
        by rewrite filter_nil, app_nil_r.
      * rewrite decide_False by (rewrite elem_of_cons; tauto).
        by rewrite (filter_cons_True _ x), filter_nil by done.
Qed.

End first_seen.

Section sub_run.
Import sub.

Lemma enqueue_first_seen fetched : ∀ all d pending seen,
  d ++ pending = first_seen_order all →
  seen_of seen (d ++ pending) →
  d ++ (enqueue fetched pending seen).1 = first_seen_order (all ++ fetched)
  ∧ seen_of (enqueue fetched pending seen).2
            (d ++ (enqueue fetched pending seen).1).
Proof.
  induction fetched as [|item rest IH]; intros all d pending seen Hall Hseen.
  - by rewrite app_nil_r.
  - cbn [enqueue]. replace (all ++ item :: rest) with ((all ++ [item]) ++ rest)
      by by rewrite <-app_assoc.
    destruct (default false (seen !! GUID item)) eqn:Hs; cbn [negb].
    + apply IH; [|done]. rewrite first_seen_order_snoc, decide_True; [done|].
      apply first_seen_order_guids. rewrite <-Hall. by apply Hseen.
    + assert (GUID item ∉ GUID <$> all) as Hnew.
      { rewrite <-first_seen_order_guids, <-Hall, <-(Hseen (GUID item)), Hs. done. }
      apply IH.
      * rewrite first_seen_order_snoc, decide_False by done.
        by rewrite app_assoc, Hall.
      * intros g. rewrite app_assoc, fmap_app, elem_of_app, <-(Hseen g).
        cbn. rewrite elem_of_cons, elem_of_nil.
        destruct (decide (g = GUID item)) as [->|Hne].
        -- rewrite lookup_insert_eq. cbn. tauto.
        -- rewrite lookup_insert_ne by done. tauto.
Qed.

Lemma enqueue_length fetched : ∀ pending seen,
  (length (enqueue fetched pending seen).1 ≤ length pending + length fetched)%nat.
Proof.
  induction fetched as [|item rest IH]; intros pending seen; cbn; [lia|].
  destruct (negb _).
  - etrans; [apply IH|]. rewrite length_app. cbn. lia.
  - etrans; [apply IH|]. lia.
Qed.

Lemma sub_run_snoc s evs ev : run s (evs ++ [ev]) = run s evs ≫= fun s' => step s' ev.
Proof. apply run_of_snoc. Qed.

Lemma sub_run_ind s0 (P : list event → state → Prop) :
  P [] s0 →
  (∀ evs s ev s', run s0 evs = Some s → P evs s → step s ev = Some s' →
                  P (evs ++ [ev]) s') →
  ∀ evs s, run s0 evs = Some s → P evs s.
Proof. apply run_of_ind. Qed.

Lemma processed_snoc evs ev :
  processed (evs ++ [ev])
  = processed evs ++ match ev with FetchDone r _ => [r] | _ => [] end.
Proof. unfold processed. rewrite omap_app. by destruct ev. Qed.

Lemma accepted_snoc rs r :
  accepted (rs ++ [r])
  = accepted rs ++ match fetchResult.err r with
                   | None => fetchResult.fetched r
                   | Some _ => []
                   end.
Proof. unfold accepted. rewrite fmap_app, concat_app. cbn. by rewrite app_nil_r. Qed.

End sub_run.

(** Case analysis on an enabled transition: one goal per way [step] returns
    a state, with the guards it checked as hypotheses. *)
Ltac sub_step_inv H :=
  match type of H with
  | sub.step ?s ?ev = Some _ =>
      destruct s, ev; unfold sub.step in H;
      cbn [sub.pending sub.next sub.err sub.seen sub.fetchDone sub.at_ sub.clock
           sub.fetching sub.updates_closed sub.delivered sub.closer] in H;
      repeat match type of H with
             | context [match ?x with _ => _ end] => destruct x eqn:?
             | context [if ?x then _ else _] => destruct x eqn:?
             end;
      try discriminate H; injection H as <-; simplify_eq
  end.

Section sub_invariants.
Import sub.

Lemma fetch_inv_step s ev s' : fetch_inv s → step s ev = Some s' → fetch_inv s'.
Proof.
  intros Hinv Hstep. sub_step_inv Hstep; unfold fetch_inv, maxPending in *; cbn in *;
    try done.
  - apply andb_prop in Heqb as [?%Nat.leb_le _]. lia.
  - rewrite length_app. cbn. lia.
  - destruct Hinv as [? ?]. cbn in *. lia.
  - destruct Hinv as [? ?]. cbn in *. lia.
  - destruct fetchDone0; cbn in *; lia.
Qed.

Lemma fetch_inv_run evs s : run Subscribe evs = Some s → fetch_inv s.
Proof.
  revert evs s. apply (sub_run_ind Subscribe (fun _ s => fetch_inv s)); [done|].
  eauto using fetch_inv_step.
Qed.

Lemma queue_inv_step evs s ev s' :
  queue_inv evs s → step s ev = Some s' → queue_inv (evs ++ [ev]) s'.
Proof.
  unfold queue_inv. intros [Hq Hseen] Hstep. rewrite processed_snoc.
  sub_step_inv Hstep; cbn in *; rewrite ?app_nil_r; try done.
  - rewrite accepted_snoc, Heqo0, app_nil_r. done.
  - rewrite accepted_snoc, Heqo0.
    pose proof (enqueue_first_seen (fetchResult.fetched t) _ _ _ _ Hq Hseen) as HH.
    rewrite Heqp in HH. done.
  - by rewrite <-app_assoc.
Qed.

Lemma queue_inv_run evs s : run Subscribe evs = Some s → queue_inv evs s.
Proof.
  revert evs s. apply sub_run_ind.
  - split; [done|]. intros g. cbn. rewrite lookup_empty. cbn.
    rewrite elem_of_nil. split; [done|tauto].
  - eauto using queue_inv_step.
Qed.

Lemma close_inv_step evs s ev s' :
  close_inv evs s → step s ev = Some s' → close_inv (evs ++ [ev]) s'.
Proof.
  unfold close_inv, last_result_err. intros (Herr & Hpc & Hupd) Hstep.
  rewrite processed_snoc.
  sub_step_inv Hstep; cbn in *; rewrite ?app_nil_r, ?last_snoc; auto.
  destruct at_0; intuition congruence.
Qed.

Lemma close_inv_run evs s : run Subscribe evs = Some s → close_inv evs s.
Proof.
  revert evs s. apply sub_run_ind; [by split; [|split; [left|]]|].
  eauto using close_inv_step.
Qed.

End sub_invariants.

Section sub_properties.
Import sub.

(** C1. In every run of the subscription, each GUID occurs at most once
    among the items enqueued so far (those delivered followed by those
    pending), and these items are the fetched items of the successful
    results, each kept at its first occurrence, in that order; so what the
    consumer has received is a prefix of that list.  When the results are
    [A] and then [A, B], with distinct GUIDs, the enqueued items are [A, B]. *)
Theorem sub_delivers_each_identity_once evs s :
  run Subscribe evs = Some s →
  NoDup (GUID <$> (delivered s ++ pending s))
  ∧ delivered s ++ pending s = first_seen_order (accepted (processed evs))
  ∧ delivered s `prefix_of` first_seen_order (accepted (processed evs))
  ∧ (∀ A B next1 next2,
       GUID A ≠ GUID B →
       processed evs = [fetchResult.mk [A] next1 None;
                        fetchResult.mk [A; B] next2 None] →
       delivered s ++ pending s = [A; B]).
Proof.
  intros Hrun. destruct (queue_inv_run _ _ Hrun) as [Hq _].
  rewrite Hq. split; [apply first_seen_order_NoDup|]. split; [done|]. split.
  - rewrite <-Hq. by apply prefix_app_r.
  - intros A B next1 next2 Hne Hp. rewrite Hp.
    change (accepted _) with (([A] ++ [A]) ++ [B]).
    rewrite first_seen_order_snoc, decide_False.
    + rewrite first_seen_order_snoc, decide_True; [done|]. cbn. left.
    + cbn. rewrite !elem_of_cons, elem_of_nil. intuition congruence.
Qed.

(** The scenario run to the end: the consumer has received A and then B. *)
Lemma sub_delivers_each_identity_once_witness :
  ∃ s, run Subscribe scenario.repeated = Some s
       ∧ delivered s = [scenario.A; scenario.B] ∧ pending s = []
       ∧ NoDup (GUID <$> (delivered s ++ pending s)).
Proof.
  eexists. split; [vm_compute; reflexivity|]. do 2 (split; [reflexivity|]).
  refine (proj1 (sub_delivers_each_identity_once scenario.repeated _ _)).
  vm_compute. reflexivity.
Defined.

(** C2, as stated, fails: after one fetch of eleven new items into the
    empty queue, pending holds eleven items. *)
Lemma sub_pending_exceeds_maxPending :
  ¬ (∀ evs s, run Subscribe evs = Some s → (length (pending s) ≤ maxPending)%nat).
Proof.
  intros H.
  destruct (run Subscribe scenario.big_batch) as [s|] eqn:Hrun; [|by vm_compute in Hrun].
  specialize (H _ _ Hrun). vm_compute in Hrun. injection Hrun as <-.
  vm_compute in H. lia.
Qed.

Lemma pending_bound_step k evs s ev s' :
  fetch_inv s →
  (batches_at_most k evs → (length (pending s) ≤ maxPending - 1 + k)%nat) →
  step s ev = Some s' →
  batches_at_most k (evs ++ [ev]) →
  (length (pending s') ≤ maxPending - 1 + k)%nat.
Proof.
  intros Hf IH Hstep Hk.
  assert (batches_at_most k evs) as Hk'.
  { intros r Hr. apply Hk. rewrite processed_snoc. apply elem_of_app. by left. }
  specialize (IH Hk'). unfold batches_at_most in Hk. rewrite processed_snoc in Hk.
  unfold fetch_inv, maxPending in *.
  sub_step_inv Hstep; cbn in *; try done.
  - destruct Hf as [_ Hf].
    specialize (Hk t (ltac:(apply elem_of_app; right; left)) Heqo0).
    pose proof (enqueue_length (fetchResult.fetched t) pending0 seen0) as Hlen.
    rewrite Heqp in Hlen. cbn in Hlen. lia.
  - lia.
Qed.

(** C2, amended. A fetch is started only while len(pending) < maxPending
    and the queue does not grow while it is in flight: when every
    successful result received holds at most k items, pending never holds
    more than maxPending - 1 + k items (at most maxPending for k = 1), and
    fewer than maxPending while fetchDone is not nil. *)
Theorem sub_pending_bound k evs s :
  run Subscribe evs = Some s →
  batches_at_most k evs →
  (length (pending s) ≤ maxPending - 1 + k)%nat
  ∧ (fetchDone s ≠ None → (length (pending s) < maxPending)%nat).
Proof.
  intros Hrun Hk. split.
  - revert evs s Hrun Hk.
    apply (sub_run_ind Subscribe (fun evs s =>
      batches_at_most k evs → (length (pending s) ≤ maxPending - 1 + k)%nat)).
    + cbn. lia.
    + intros evs s ev s' Hrun IH Hstep.
      eapply pending_bound_step; eauto using fetch_inv_run.
  - pose proof (fetch_inv_run _ _ Hrun) as Hf. unfold fetch_inv in Hf.
    destruct (fetchDone s); [tauto|done].
Qed.

(** The bound on the run of the two-fetch scenario, with k = 2. *)
Lemma sub_pending_bound_witness :
  ∃ s, run Subscribe scenario.repeated = Some s
       ∧ (length (pending s) ≤ maxPending - 1 + 2)%nat.
Proof.
  eexists. split; [vm_compute; reflexivity|].
  refine (proj1 (sub_pending_bound 2 scenario.repeated _ _ _)).
  - vm_compute. reflexivity.
  - intros r Hr _. vm_compute in Hr.
    repeat (apply elem_of_cons in Hr as [->|Hr]; [cbn; lia|]).
    by apply elem_of_nil in Hr.
Defined.

Lemma fetchDelay_saturated next now :
  fetchDelay next now = Z.max 0 (Z.min (next - now) maxDuration).
Proof.
  unfold fetchDelay, After, Sub, maxDuration, minDuration.
  repeat case_match; lia.
Qed.

Lemma fetchDelay_exact next now :
  next - now ≤ maxDuration → fetchDelay next now = Z.max 0 (next - now).
Proof. intros Hle. rewrite fetchDelay_saturated. lia. Qed.

Lemma StartFetch_enabled s now fired :
  is_Some (step s (StartFetch now fired))
  ↔ at_ s = Select ∧ fetchDone s = None
    ∧ (length (pending s) < maxPending)%nat
    ∧ clock s ≤ now
    ∧ now + fetchDelay (next s) now ≤ fired.
Proof.
  unfold step, Add.
  destruct (at_ s), (fetchDone s);
    try (split; [by intros [? ?]|intros (?&?&?); done]).
  destruct (Nat.ltb_spec (length (pending s)) maxPending);
    destruct (Z.leb_spec (clock s) now);
    destruct (Z.leb_spec (now + fetchDelay (next s) now) fired); cbn;
    (split; [intros [? ?]|intros (?&?&?&?&?)]); try done; try lia.
Qed.

(** C3, as stated, fails in its clause on the delay: a fetch result asks
    for the next fetch 10^10 seconds after the zero time, further ahead
    than a Duration can hold; read at time 0 the delay is the largest
    Duration, not next - now. *)
Lemma sub_fetchDelay_saturates :
  ¬ (∀ evs s now, run Subscribe evs = Some s →
                  fetchDelay (next s) now = Z.max 0 (next s - now)).
Proof.
  intros H.
  destruct (run Subscribe scenario.far_future) as [s|] eqn:Hrun;
    [|by vm_compute in Hrun].
  specialize (H _ _ 0 Hrun). vm_compute in Hrun. injection Hrun as <-.
  by vm_compute in H.
Qed.

(** C3. In every reachable state at most one fetch goroutine is alive, and
    none when fetchDone is nil.  The delay of the timer is max(0, next - now)
    capped at the largest Duration, hence max(0, next - now) when next is no
    further ahead than that.  The timer case can be taken exactly when the
    loop is in its select, fetchDone is nil, len(pending) < maxPending and
    the delay has elapsed since the reading now of the clock; taking it
    starts the one fetch. *)
Theorem sub_one_fetch_in_flight evs s :
  run Subscribe evs = Some s →
  (fetching s ≤ 1)%nat
  ∧ (fetchDone s = None → fetching s = 0%nat)
  ∧ (∀ now fired,
       fetchDelay (next s) now = Z.max 0 (Z.min (next s - now) maxDuration)
       ∧ (next s - now ≤ maxDuration →
            fetchDelay (next s) now = Z.max 0 (next s - now))
       ∧ (is_Some (step s (StartFetch now fired))
          ↔ at_ s = Select ∧ fetchDone s = None
            ∧ (length (pending s) < maxPending)%nat
            ∧ clock s ≤ now
            ∧ now + fetchDelay (next s) now ≤ fired)
       ∧ (∀ s', step s (StartFetch now fired) = Some s' →
                fetching s = 0%nat ∧ fetching s' = 1%nat
                ∧ fetchDone s' = Some [])).
Proof.
  intros Hrun. pose proof (fetch_inv_run _ _ Hrun) as Hf. unfold fetch_inv in Hf.
  split; [destruct (fetchDone s); lia|].
  split; [by intros Hnil; rewrite Hnil in Hf|].
  intros now fired. split; [apply fetchDelay_saturated|].
  split; [apply fetchDelay_exact|]. split.
  - apply StartFetch_enabled.
  - intros s' Hstep.
    assert (fetchDone s = None) as Hnil.
    { apply (StartFetch_enabled s now fired). eauto. }
    rewrite Hnil in Hf. unfold step in Hstep. rewrite Hnil in Hstep.
    destruct (at_ s); try done. destruct (_ && _); [|done].
    injection Hstep as <-. cbn. by rewrite Hf.
Qed.

(** After the first timer has fired, one fetch is in flight. *)
Lemma sub_one_fetch_in_flight_witness :
  ∃ s, run Subscribe [StartFetch 0 0] = Some s ∧ (fetching s ≤ 1)%nat.
Proof.
  eexists. split; [vm_compute; reflexivity|].
  refine (proj1 (sub_one_fetch_in_flight [StartFetch 0 0] _ _)).
  vm_compute. reflexivity.
Defined.

Lemma closed_loop_step s ev s' :
  at_ s ≠ Select → step s ev = Some s' →
  at_ s' ≠ Select ∧ delivered s' = delivered s ∧ pending s' = pending s
  ∧ err s' = err s ∧ (∀ e, closer s = Closed e → closer s' = Closed e).
Proof.
  intros Hat Hstep. sub_step_inv Hstep; cbn in *; try done.
Qed.

Lemma closed_loop_run s evs s' :
  at_ s ≠ Select → run s evs = Some s' →
  delivered s' = delivered s ∧ (∀ e, closer s = Closed e → closer s' = Closed e).
Proof.
  intros Hat Hrun.
  enough (at_ s' ≠ Select ∧ delivered s' = delivered s
          ∧ (∀ e, closer s = Closed e → closer s' = Closed e)) by tauto.
  revert evs s' Hrun. apply sub_run_ind; [done|].
  intros evs s1 ev s2 _ (Hat1 & Hd & Hc) Hstep.
  destruct (closed_loop_step _ _ _ Hat1 Hstep) as (? & ? & _ & _ & Hc').
  split; [done|]. split; [congruence|]. eauto.
Qed.

Lemma Close_terminates s :
  at_ s = Select → closer s = NotCalled →
  ∃ s', run s [CallClose; RecvClosing; SendErrc; DoCloseUpdates] = Some s'
        ∧ closer s' = Closed (err s) ∧ at_ s' = Returned
        ∧ updates_closed s' = true ∧ delivered s' = delivered s.
Proof.
  intros Hat Hc. destruct s. cbn in *. subst.
  eexists. split; [reflexivity|]. by cbn.
Qed.

(** C5, as stated, fails: a fetch fails, the retry succeeds, then Close is
    called; Close returns nil although a failure was recorded. *)
Lemma sub_Close_forgets_failure :
  ¬ (∀ evs s e, run Subscribe evs = Some s → closer s = Closed e →
                e = most_recent_failure (processed evs)).
Proof.
  intros H.
  destruct (run Subscribe scenario.fail_then_succeed) as [s|] eqn:Hrun;
    [|by vm_compute in Hrun].
  specialize (H _ s None Hrun). vm_compute in Hrun. injection Hrun as <-.
  specialize (H eq_refl). vm_compute in H. done.
Qed.

(** C5, amended. Close, called once, can always run to its end, and it
    returns only after the loop has taken the closing case and sent the
    reply.  What it returns is the error of the fetch result the loop
    received last: nil when that fetch succeeded or when no result was
    received.  Once Close has returned, no run delivers a further item, and
    the stream is closed or the loop's next step closes it. *)
Theorem sub_Close_returns_last_result_err evs s :
  run Subscribe evs = Some s →
  (closer s = NotCalled →
     ∃ s', run s [CallClose; RecvClosing; SendErrc; DoCloseUpdates] = Some s'
           ∧ closer s' = Closed (last_result_err (processed evs))
           ∧ updates_closed s' = true)
  ∧ (∀ e, closer s = Closed e →
       (at_ s = CloseUpdates ∨ at_ s = Returned)
       ∧ e = last_result_err (processed evs)
       ∧ (∀ evs' s', run s evs' = Some s' →
            delivered s' = delivered s ∧ closer s' = Closed e)
       ∧ (updates_closed s = true
          ∨ ∃ s', step s DoCloseUpdates = Some s' ∧ updates_closed s' = true)).
Proof.
  intros Hrun. destruct (close_inv_run _ _ Hrun) as (Herr & Hpc & Hupd). split.
  - intros Hc. destruct (Close_terminates s) as (s' & ? & ? & ? & ? & ?); [|done|].
    + destruct (at_ s); [done|congruence..].
    + exists s'. by rewrite <-Herr.
  - intros e He. rewrite He in Hpc.
    assert (at_ s ≠ Select) as Hat by (destruct (at_ s); intuition congruence).
    split; [destruct (at_ s); intuition congruence|]. split.
    + destruct (at_ s); try (intuition congruence). 
    + split.
      * intros evs' s' Hrun'. destruct (closed_loop_run _ _ _ Hat Hrun'). eauto.
      * unfold step. destruct (at_ s); try (intuition congruence).
        right. eexists. split; [reflexivity|done].
Qed.

(** Close after a failure and a successful retry returns nil. *)
Lemma sub_Close_returns_last_result_err_witness :
  ∃ s, run Subscribe scenario.fail_then_succeed = Some s
       ∧ closer s = Closed None
       ∧ None = last_result_err (processed scenario.fail_then_succeed).
Proof.
  eexists. split; [vm_compute; reflexivity|]. split; [reflexivity|].
  refine (proj1 (proj2 (proj2
    (sub_Close_returns_last_result_err scenario.fail_then_succeed _ _) None _))).
  - vm_compute. reflexivity.
  - reflexivity.
Defined.

End sub_properties.

(** ** Fetch failures (sub and naiveSub) *)

(** C4. A fetch result that carries a failure: the loop records it in err,
    sets next to now + 10s whatever happened before, leaves pending, seen,
    the delivered items and the stream as they are and stays in its select;
    no fetch can then start before now + 10s.  naiveSub.loop likewise
    records the failure in s.err, sleeps 10s and goes back to the top of
    the loop without sending anything. *)
Theorem fetch_failure_fixed_backoff (s : sub.state) r buf e now :
  sub.at_ s = sub.Select →
  sub.fetchDone s = Some (r :: buf) →
  sub.fetchResult.err r = Some e →
  (∃ s', sub.step s (sub.FetchDone r now) = Some s'
         ∧ sub.err s' = Some e
         ∧ sub.next s' = now + 10 * Second
         ∧ sub.pending s' = sub.pending s
         ∧ sub.seen s' = sub.seen s
         ∧ sub.delivered s' = sub.delivered s
         ∧ sub.at_ s' = sub.Select
         ∧ sub.updates_closed s' = sub.updates_closed s
         ∧ sub.closer s' = sub.closer s
         ∧ (∀ now' fired, is_Some (sub.step s' (sub.StartFetch now' fired)) →
                          now + 10 * Second ≤ fired))
  ∧ (∀ (n : naiveSub.state) items next,
       naiveSub.at_ n = naiveSub.Fetching →
       ∃ n', naiveSub.step n (naiveSub.FetchReturns items next (Some e)) = Some n'
             ∧ naiveSub.err n' = Some e
             ∧ naiveSub.at_ n' = naiveSub.Sleeping (10 * Second)
             ∧ naiveSub.delivered n' = naiveSub.delivered n
             ∧ naiveSub.updates_closed n' = naiveSub.updates_closed n
             ∧ naiveSub.closed n' = naiveSub.closed n
             ∧ ∃ n'', naiveSub.step n' naiveSub.Wake = Some n''
                      ∧ naiveSub.at_ n'' = naiveSub.Top
                      ∧ naiveSub.delivered n'' = naiveSub.delivered n).
Proof.
  intros Hat Hfd He. split.
  - unfold sub.step. rewrite Hat, Hfd, decide_True, He by done.
    eexists. split; [reflexivity|]. repeat (split; [reflexivity|]).
    intros now' fired Hs.
    apply StartFetch_enabled in Hs as (_ & _ & _ & Hclock & Hs).
    cbn in Hclock, Hs. unfold Add in Hs.
    rewrite fetchDelay_exact in Hs by (unfold maxDuration, Second, Millisecond; lia).
    lia.
  - intros n items next Hn. unfold naiveSub.step at 1. rewrite Hn.
    eexists. split; [reflexivity|]. cbn. repeat (split; [done|]).
    eexists. split; [reflexivity|]. done.
Qed.

(** A failed fetch received one second after the start: next is 11s. *)
Lemma fetch_failure_fixed_backoff_witness :
  ∃ s, sub.run sub.Subscribe scenario.failure_buffered = Some s
       ∧ ∃ s', sub.step s (sub.FetchDone scenario.failed (1 * Second)) = Some s'
               ∧ sub.err s' = Some "timeout"
               ∧ sub.next s' = 1 * Second + 10 * Second.
Proof.
  eexists. split; [vm_compute; reflexivity|].
  destruct (proj1 (fetch_failure_fixed_backoff
                     (default sub.Subscribe
                        (sub.run sub.Subscribe scenario.failure_buffered))
                     scenario.failed [] "timeout" (1 * Second)
                     eq_refl eq_refl eq_refl))
    as (s' & Hstep & Herr & Hnext & _).
  exists s'. split; [exact Hstep|]. split; [exact Herr|exact Hnext].
Defined.

(** ** naiveSub *)

Section naiveSub_properties.
Import naiveSub.

(** s.updates is closed exactly when the loop has returned. *)
Lemma naiveSub_updates_closed evs s :
  run NaiveSubscribe evs = Some s →
  updates_closed s = match at_ s with Returned => true | _ => false end.
Proof.
  revert evs s.
  apply (run_of_ind step NaiveSubscribe
           (fun _ s => updates_closed s = match at_ s with Returned => true | _ => false end));
    [done|].
  intros evs s ev s' _ IH Hstep.
  destruct ev; unfold step in Hstep; repeat case_match; simplify_eq; cbn in *;
    try done; repeat case_match; try done; congruence.
Qed.

Lemma naiveSub_sends_rest items : ∀ s next,
  at_ s = Sending items next →
  ∃ s', run s (replicate (length items) SendUpdate) = Some s'
        ∧ delivered s' = delivered s ++ items
        ∧ at_ s' = Sending [] next
        ∧ closed s' = closed s
        ∧ updates_closed s' = updates_closed s.
Proof.
  induction items as [|item rest IH]; intros s next Hat.
  - exists s. by rewrite app_nil_r.
  - destruct s as [c e a u d cr]. cbn in Hat. subst a.
    cbn [length replicate]. unfold run. rewrite run_of_cons. cbn.
    match goal with
    | |- context [run_of step ?st _] =>
        destruct (IH st next eq_refl) as (s' & Hrun & Hd & Hat' & Hc & Hu)
    end.
    exists s'. split; [exact Hrun|]. cbn in *. by rewrite Hd, <-app_assoc.
Qed.

(** Once s.closed is set it stays set, and the first time the loop comes
    to its check it closes the stream and returns. *)
Lemma naiveSub_closes_at_next_check s evs s' :
  closed s = true → run s evs = Some s' →
  closed s' = true
  ∧ (Check ∈ evs → at_ s' = Returned ∧ updates_closed s' = true).
Proof.
  intros Hc. revert evs s'. apply run_of_ind.
  - split; [done|]. by intros ?%elem_of_nil.
  - intros evs s1 ev s2 _ [Hc1 Hchk] Hstep. split.
    + destruct ev; unfold step in Hstep; repeat case_match; by simplify_eq.
    + intros Hin. apply elem_of_app in Hin as [Hin|Hin%list_elem_of_singleton].
      * destruct (Hchk Hin) as [Hat Hu].
        destruct ev; unfold step in Hstep; rewrite ?Hat in Hstep; by simplify_eq.
      * subst ev. unfold step in Hstep. rewrite Hc1 in Hstep.
        destruct (at_ s1); by simplify_eq.
Qed.

(** C10. naiveSub.Close never blocks and does not close the stream: the
    call is enabled in every state, sets s.closed, returns the current
    s.err and changes nothing else.  The stream is closed only by the loop,
    at the top of an iteration, once it sees the flag.  A batch that is
    being sent when Close returns is still sent to the end on the open
    stream.  At the top of an iteration the loop does look at the flag:
    set, the loop closes the stream and returns, and this is its only step;
    not set, the loop goes on to Fetch with the stream open.  Once the flag
    is set it stays set, and the first check the loop makes afterwards
    closes the stream. *)
Theorem naiveSub_Close_is_only_a_flag evs s :
  run NaiveSubscribe evs = Some s →
  (∃ s', step s Close = Some s'
         ∧ closed s' = true
         ∧ close_results s' = close_results s ++ [err s]
         ∧ err s' = err s ∧ at_ s' = at_ s
         ∧ updates_closed s' = updates_closed s
         ∧ delivered s' = delivered s)
  ∧ (∀ ev s', step s ev = Some s' → updates_closed s' = true →
              updates_closed s = true
              ∨ (ev = Check ∧ at_ s = Top ∧ closed s = true ∧ at_ s' = Returned))
  ∧ (∀ items next, at_ s = Sending items next →
       updates_closed s = false
       ∧ ∃ s', run s (Close :: replicate (length items) SendUpdate) = Some s'
               ∧ closed s' = true
               ∧ delivered s' = delivered s ++ items
               ∧ updates_closed s' = false)
  ∧ (at_ s = Top → closed s = true →
       (∃ s', step s Check = Some s'
              ∧ updates_closed s' = true ∧ at_ s' = Returned
              ∧ delivered s' = delivered s)
       ∧ ∀ ev s', step s ev = Some s' → ev = Close ∨ ev = Check)
  ∧ (at_ s = Top → closed s = false →
       ∃ s', step s Check = Some s'
             ∧ updates_closed s' = false ∧ at_ s' = Fetching
             ∧ delivered s' = delivered s)
  ∧ (closed s = true → ∀ evs' s', run s evs' = Some s' →
       closed s' = true
       ∧ (Check ∈ evs' → at_ s' = Returned ∧ updates_closed s' = true)).
Proof.
  intros Hrun. pose proof (naiveSub_updates_closed _ _ Hrun) as Hupd.
  split; [|split; [|split; [|split; [|split]]]].
  - eexists. split; [reflexivity|]. done.
  - intros ev s' Hstep Hc.
    destruct ev; unfold step in Hstep; repeat case_match; simplify_eq; cbn in *;
      auto.
  - intros items next Hat. rewrite Hat in Hupd. split; [done|].
    unfold run. rewrite run_of_cons. cbn [step mbind option_bind].
    edestruct (naiveSub_sends_rest items) as (s' & Hrun' & Hd & _ & Hc & Hu);
      [|exists s'; split; [exact Hrun'|]]; [exact Hat|].
    cbn in *. by rewrite Hc, Hd, Hu.
  - intros Hat Hc. split.
    + unfold step. rewrite Hat, Hc. eexists. split; [reflexivity|]. done.
    + intros ev s' Hstep. destruct ev; auto; unfold step in Hstep;
        by rewrite Hat in Hstep.
  - intros Hat Hc. rewrite Hat in Hupd. unfold step. rewrite Hat, Hc.
    eexists. split; [reflexivity|]. done.
  - intros Hc evs' s' Hrun'. by apply (naiveSub_closes_at_next_check s).
Qed.

(** Close called while a batch [A, B] is being sent: both are delivered. *)
Lemma naiveSub_Close_is_only_a_flag_witness :
  ∃ s, run NaiveSubscribe scenario.naive_sending = Some s
       ∧ ∃ s', run s [Close; SendUpdate; SendUpdate] = Some s'
               ∧ closed s' = true
               ∧ delivered s' = delivered s ++ [scenario.A; scenario.B]
               ∧ updates_closed s' = false.
Proof.
  eexists. split; [vm_compute; reflexivity|].
  refine (proj2 (proj1 (proj2 (proj2
    (naiveSub_Close_is_only_a_flag scenario.naive_sending _ _)))
    [scenario.A; scenario.B] (1 * Second) _)).
  - vm_compute. reflexivity.
  - reflexivity.
Defined.

End naiveSub_properties.

(** ** naiveMerge *)

(** Case analysis on an enabled transition of the merge. *)
Ltac merge_step_inv H :=
  match type of H with
  | naiveMerge.step ?s ?ev = Some _ =>
      destruct s, ev; unfold naiveMerge.step in H;
      cbn [naiveMerge.subs naiveMerge.forwarders naiveMerge.updates_closed
           naiveMerge.delivered naiveMerge.closer naiveMerge.panicked] in H;
      repeat match type of H with
             | context [match ?x with _ => _ end] =>
                 lazymatch x with
                 | (_, _) => fail
                 | _ => destruct x eqn:?
                 end
             | context [if ?x then _ else _] => destruct x eqn:?
             end;
      try discriminate H; injection H as <-; simplify_eq
  end.

Section naiveMerge_properties.
Import naiveMerge.

Lemma first_non_nil_snoc rs e :
  first_non_nil (rs ++ [e])
  = match first_non_nil rs, e with
    | None, Some _ => e
    | err, _ => err
    end.
Proof.
  induction rs as [|[r|] rs IH]; cbn; [by destruct e|done|exact IH].
Qed.

Lemma close_result_insert_same (cs : list child) i c c' :
  cs !! i = Some c → close_result c' = close_result c →
  close_result <$> <[i := c']> cs = close_result <$> cs.
Proof.
  intros Hc Heq. rewrite list_fmap_insert, Heq.
  apply list_insert_id. by rewrite list_lookup_fmap, Hc.
Qed.

Lemma close_result_insert_next n (cs : list child) rs c' e :
  (length rs < n)%nat →
  close_result <$> cs = (Some <$> rs) ++ replicate (n - length rs) None →
  close_result c' = Some e →
  close_result <$> <[length rs := c']> cs
  = (Some <$> (rs ++ [e])) ++ replicate (n - S (length rs)) None.
Proof.
  intros Hlt Hcs He. rewrite list_fmap_insert, Hcs, He.
  replace (n - length rs)%nat with (S (n - S (length rs))) by lia.
  cbn [replicate].
  replace (length rs) with (length (Some <$> rs) + 0)%nat at 1
    by (rewrite length_fmap; lia).
  rewrite insert_app_r. cbn. by rewrite fmap_app, <-app_assoc.
Qed.

Lemma closing_inv_same n (cs cs' : list child) i err :
  close_result <$> cs' = close_result <$> cs →
  closing_inv n cs i err → closing_inv n cs' i err.
Proof. intros Heq (rs & ? & ? & ? & ?). exists rs. by rewrite Heq. Qed.

Lemma closing_inv_next n (cs : list child) i err c' e :
  closing_inv n cs i err → (i < n)%nat → close_result c' = Some e →
  closing_inv n (<[i := c']> cs) (S i)
    (match err, e with None, Some _ => e | _, _ => err end).
Proof.
  intros (rs & Hrs & Hle & Hcs & Herr) Hlt He.
  exists (rs ++ [e]). subst i. rewrite length_app. cbn.
  split; [lia|]. split; [lia|]. split.
  - by apply close_result_insert_next.
  - rewrite first_non_nil_snoc, <-Herr. by destruct err, e.
Qed.

Lemma merge_inv_step n s ev s' : merge_inv n s → step s ev = Some s' → merge_inv n s'.
Proof.
  intros [Hlen Hc] Hstep. merge_step_inv Hstep; cbn in *.
  all: split; cbn; rewrite ?length_insert; try done.
  - (* ChildClosesStream *)
    destruct closer0; (destruct Hc as [Hc Hu]; split; [|done]);
      (eapply closing_inv_same; [|exact Hc]);
      by eapply close_result_insert_same.
  - (* CallChildClose *)
    destruct Hc as [Hc Hu]. split; [|split; [|done]].
    + eapply closing_inv_same; [|exact Hc]. by eapply close_result_insert_same.
    + by eapply lookup_lt_Some.
  - (* ChildCloseReturns, err already set *)
    destruct Hc as (Hc & Hlt & Hu). split; [|done].
    by apply (closing_inv_next _ _ _ _ _ e Hc Hlt).
  - (* ChildCloseReturns, the first error *)
    destruct Hc as (Hc & Hlt & Hu). split; [|done].
    by apply (closing_inv_next _ _ _ _ _ (Some e0) Hc Hlt).
  - (* ChildCloseReturns, no error yet *)
    destruct Hc as (Hc & Hlt & Hu). split; [|done].
    by apply (closing_inv_next _ _ _ _ _ None Hc Hlt).
  - (* DoCloseUpdates *)
    destruct Hc as ((rs & Hrs & Hle & Hcs & Herr) & Hu). split; [|done].
    assert (i = length subs0) as ->.
    { match goal with H : subs0 !! i = None |- _ => apply lookup_ge_None in H end.
      lia. }
    by exists rs.
Qed.

Lemma merge_inv_run n evs s : run (NaiveMerge n) evs = Some s → merge_inv n s.
Proof.
  revert evs s. apply (run_of_ind step (NaiveMerge n) (fun _ s => merge_inv n s)).
  - split; [apply length_replicate|]. cbn. split; [|done].
    exists []. cbn. rewrite Nat.sub_0_r, fmap_replicate. split; [done|].
    split; [lia|done].
  - eauto using merge_inv_step.
Qed.






(** A merge of no subscription has no forwarder, and Close has no child to
    close. *)
Lemma naiveMerge_zero_inv evs s :
  run (NaiveMerge 0) evs = Some s →
  subs s = [] ∧ forwarders s = [] ∧ delivered s = [] ∧ panicked s = false
  ∧ (closer s = NotCalled ∧ updates_closed s = false
     ∨ closer s = Ranging 0 None ∧ updates_closed s = false
     ∨ closer s = Returning None ∧ updates_closed s = true
     ∨ closer s = Closed None ∧ updates_closed s = true).
Proof.
  revert evs s. apply run_of_ind; [by repeat (split; [done|]); left|].
  intros evs s ev s' _ (Hs & Hf & Hd & Hp & Hc) Hstep.
  merge_step_inv Hstep; cbn in *; subst;
    repeat match goal with
           | H : [] !! _ = Some _ |- _ => by rewrite lookup_nil in H
           end;
    repeat (split; [done|]); intuition (try congruence).
Qed.

(** C7. A merge of zero children: its stream never yields an item (no
    forwarder exists, and nothing is delivered in any run); Close needs no
    step of any child, returns no error and leaves the stream closed. *)
Theorem naiveMerge_zero_children evs s :
  run (NaiveMerge 0) evs = Some s →
  delivered s = []
  ∧ panicked s = false
  ∧ (∀ i it, step s (ChildSends i it) = None ∧ step s (Forward i) = None)
  ∧ (∀ e, closer s = Closed e → e = None ∧ updates_closed s = true)
  ∧ (closer s = NotCalled →
       ∃ s', run s [CallClose; DoCloseUpdates; CloseReturns] = Some s'
             ∧ closer s' = Closed None
             ∧ updates_closed s' = true
             ∧ delivered s' = []).
Proof.
  intros Hrun. destruct (naiveMerge_zero_inv _ _ Hrun) as (Hs & Hf & Hd & Hp & Hc).
  repeat (split; [done|]). split; [|split].
  - intros i it. unfold step. by rewrite Hp, Hs, Hf, !lookup_nil.
  - intros e He. rewrite He in Hc. intuition congruence.
  - intros Hn. destruct s; cbn in *; subst. eexists. split; [reflexivity|]. done.
Qed.

(** Close on a fresh merge of nothing. *)
Lemma naiveMerge_zero_children_witness :
  ∃ s', run (NaiveMerge 0) [CallClose; DoCloseUpdates; CloseReturns] = Some s'
        ∧ closer s' = Closed None
        ∧ updates_closed s' = true
        ∧ delivered s' = [].
Proof.
  exact (proj2 (proj2 (proj2 (proj2
    (naiveMerge_zero_children [] (NaiveMerge 0) eq_refl)))) eq_refl).
Defined.

(** C8, on naiveMerge, which has no cancellation signal.  One child; its
    forwarder has received A and stands at m.updates <- A when Close runs.
    Close closes the child and then m.updates and returns, while the
    forwarder has not exited; the forwarder's send then meets the closed
    channel. *)
Theorem naiveMerge_Close_races_forwarder :
  ∃ s, run (NaiveMerge 1) scenario.merge_close_while_forwarding = Some s
       ∧ closer s = Closed None
       ∧ updates_closed s = true
       ∧ forwarders s = [Forwarding scenario.A]
       ∧ ∃ s', step s (Forward 0) = Some s' ∧ panicked s' = true
               ∧ delivered s' = [].
Proof.
  eexists. split; [vm_compute; reflexivity|]. repeat (split; [reflexivity|]).
  eexists. split; [reflexivity|]. done.
Qed.

End naiveMerge_properties.

(** ** Further properties *)

Section sub_backoff.
Import sub.

(** After a failure received at [t], until the timer fires again, next
    stays at t + 10s, no fetch is in flight and no later reading of the
    clock is kept. *)
Lemma backoff_holds s0 t mid s :
  next s0 = t + 10 * Second → fetchDone s0 = None → clock s0 = t →
  (∀ now fired, StartFetch now fired ∉ mid) →
  run s0 mid = Some s →
  next s = t + 10 * Second ∧ fetchDone s = None ∧ clock s = t.
Proof.
  intros Hn Hf Hc Hmid Hrun. revert mid s Hrun Hmid.
  apply (sub_run_ind s0 (fun mid s =>
    (∀ now fired, StartFetch now fired ∉ mid) →
    next s = t + 10 * Second ∧ fetchDone s = None ∧ clock s = t)); [done|].
  intros evs s ev s' _ IH Hstep Hno.
  destruct IH as (IHn & IHf & IHc).
  { intros now fired Hin. apply (Hno now fired), elem_of_app. by left. }
  sub_step_inv Hstep; cbn in *; try done.
  exfalso. eapply Hno, elem_of_app. right. left.
Qed.

(** X1. The first fetch started after a failed one fires no earlier than
    ten seconds after the loop received the failure. *)
Theorem sub_retry_waits_ten_seconds pre r e t mid now fired s :
  run Subscribe (pre ++ [FetchDone r t] ++ mid ++ [StartFetch now fired]) = Some s →
  fetchResult.err r = Some e →
  (∀ now' fired', StartFetch now' fired' ∉ mid) →
  t + 10 * Second ≤ fired.
Proof.
  intros Hrun He Hmid. unfold run in Hrun.
  rewrite run_of_app in Hrun.
  destruct (run_of step Subscribe pre) as [s0|] eqn:H0; [|done]. cbn [mbind option_bind] in Hrun.
  rewrite run_of_app in Hrun.
  destruct (run_of step s0 [FetchDone r t]) as [s1|] eqn:H1; [|done]. cbn [mbind option_bind] in Hrun.
  rewrite run_of_app in Hrun.
  destruct (run_of step s1 mid) as [s2|] eqn:H2; [|done]. cbn [mbind option_bind] in Hrun.
  assert (next s1 = t + 10 * Second ∧ fetchDone s1 = None ∧ clock s1 = t)
    as (Hn & Hf & Hc).
  { unfold run_of in H1. cbn [foldl mbind option_bind] in H1. unfold step in H1.
    destruct (at_ s0); try done. destruct (fetchDone s0) as [[|result ?]|]; try done.
    case_decide; [subst result|done]. rewrite He in H1.
    by injection H1 as <-. }
  destruct (backoff_holds s1 t mid s2 Hn Hf Hc Hmid H2) as (Hn2 & Hf2 & Hc2).
  assert (is_Some (step s2 (StartFetch now fired))) as Hen by (by exists s).
  apply StartFetch_enabled in Hen as (_ & _ & _ & Hclock & Hen).
  rewrite Hn2 in Hen. rewrite Hc2 in Hclock.
  rewrite fetchDelay_exact in Hen by (unfold maxDuration, Second, Millisecond; lia).
  lia.
Qed.

(** The run of the scenario: a failure at 1s, the retry fires at 11s. *)
Lemma sub_retry_waits_ten_seconds_witness : 1 * Second + 10 * Second ≤ 11 * Second.
Proof.
  refine (sub_retry_waits_ten_seconds
            [StartFetch 0 0; FetchReturns scenario.failed] scenario.failed "timeout"
            (1 * Second) [] (2 * Second) (11 * Second) _ _ eq_refl _).
  - vm_compute. reflexivity.
  - intros now' fired'. apply not_elem_of_nil.
Defined.

End sub_backoff.

Section naiveSub_err.
Import naiveSub.

(** X2. naiveSub.loop assigns s.err only when a fetch fails: s.err is the
    most recent failure, whatever succeeded since, and this is what a call
    of Close returns. *)
Theorem naiveSub_err_is_most_recent_failure evs s :
  run NaiveSubscribe evs = Some s →
  err s = last (fetch_failures evs)
  ∧ ∃ s', step s Close = Some s'
          ∧ close_results s' = close_results s ++ [last (fetch_failures evs)].
Proof.
  intros Hrun.
  assert (err s = last (fetch_failures evs)) as Herr.
  { revert evs s Hrun.
    apply (run_of_ind step NaiveSubscribe
             (fun evs s => err s = last (fetch_failures evs))); [done|].
    intros evs s ev s' _ IH Hstep. unfold fetch_failures in *. rewrite omap_app.
    destruct ev; unfold step in Hstep; repeat case_match; simplify_eq; cbn;
      rewrite ?app_nil_r, ?last_snoc; done. }
  split; [exact Herr|]. eexists. split; [reflexivity|]. cbn. by rewrite Herr.
Qed.

(** A failure, then a successful fetch: s.err is still the failure. *)
Lemma naiveSub_err_is_most_recent_failure_witness :
  ∃ s, run NaiveSubscribe scenario.naive_recovered = Some s
       ∧ err s = Some "timeout".
Proof.
  eexists. split; [vm_compute; reflexivity|].
  refine (proj1 (naiveSub_err_is_most_recent_failure scenario.naive_recovered _ _)).
  vm_compute. reflexivity.
Defined.

End naiveSub_err.

(** ** fakeFetcher: identities and schedule *)

Lemma Sprintf_Item_inj n m : Sprintf_Item n = Sprintf_Item m → n = m.
Proof.
  unfold Sprintf_Item. intros H. apply (inj (String.app "Item ")) in H.
  apply Unsigned.to_uint_inj.
  assert (Some (Nat.to_uint n) = Some (Nat.to_uint m)) as Heq; [|congruence].
  rewrite <-!NilEmpty.usu. by rewrite H.
Qed.

Lemma new_item_GUID_inj domain n m :
  GUID (fakeFetcher.new_item domain n) = GUID (fakeFetcher.new_item domain m) → n = m.
Proof.
  cbn. intros H. apply (inj (String.app (domain +:+ "/"))) in H.
  by apply Sprintf_Item_inj.
Qed.

Lemma new_items_NoDup domain k n :
  NoDup (GUID <$> (fakeFetcher.new_item domain <$> seq k n)).
Proof.
  rewrite <-list_fmap_compose. apply NoDup_fmap_2_strong; [|apply NoDup_seq].
  intros a b _ _ H. by apply (new_item_GUID_inj domain).
Qed.

(** X3. The items a fakeFetcher has generated have pairwise different
    GUIDs, and so have the items any call of Fetch returns, with or
    without FakeDuplicates. *)
Theorem fakeFetcher_GUIDs_distinct (domain : string) (es : list fakeFetcher.env)
    (e : fakeFetcher.env) :
  let f := fakeFetcher.after_calls es (fakeFetcher.fakeFetch domain) in
  NoDup (GUID <$> fakeFetcher.items f)
  ∧ NoDup (GUID <$> (fst (fakeFetcher.Fetch e f)).1.1)
  ∧ NoDup (GUID <$> fakeFetcher.items (snd (fakeFetcher.Fetch e f))).
Proof.
  cbv zeta. rewrite fakeFetcher_state_after_calls. cbn.
  rewrite length_fmap, length_seq.
  assert (NoDup (GUID <$> (fakeFetcher.new_item domain <$> seq 0 (length es))
                          ++ [fakeFetcher.new_item domain (length es)])) as H.
  { replace [fakeFetcher.new_item domain (length es)]
      with (fakeFetcher.new_item domain <$> [length es]) by done.
    rewrite <-fmap_app, <-seq_S. apply new_items_NoDup. }
  split; [apply new_items_NoDup|]. split; [|exact H].
  destruct (fakeFetcher.FakeDuplicates e); [exact H|].
  cbn. apply NoDup_singleton.
Qed.

(** X4. When rand.Intn(5) returns a value in [0, 5), the next fetch time a
    fakeFetcher asks for is a multiple of 500ms after now, at most two
    seconds later. *)
Theorem fakeFetcher_next_within_two_seconds (e : fakeFetcher.env) (f : fakeFetcher.t) :
  0 ≤ fakeFetcher.Intn5 e < 5 →
  let next := (fst (fakeFetcher.Fetch e f)).1.2 in
  fakeFetcher.now e ≤ next ≤ fakeFetcher.now e + 2 * Second
  ∧ (next - fakeFetcher.now e) `mod` (500 * Millisecond) = 0.
Proof.
  intros Hr. cbn. unfold Add, Second, Millisecond. split; [lia|].
  replace (fakeFetcher.now e + fakeFetcher.Intn5 e * 500 * 1000000 - fakeFetcher.now e)
    with (fakeFetcher.Intn5 e * (500 * 1000000)) by lia.
  apply Z_mod_mult.
Qed.

Lemma fakeFetcher_next_within_two_seconds_witness :
  let next := (fst (fakeFetcher.Fetch (fakeFetcher.mkEnv false 7 4)
                      (fakeFetcher.fakeFetch "blog.golang.org"))).1.2 in
  7 ≤ next ≤ 7 + 2 * Second ∧ (next - 7) `mod` (500 * Millisecond) = 0.
Proof.
  apply (fakeFetcher_next_within_two_seconds (fakeFetcher.mkEnv false 7 4)).
  cbn. lia.
Defined.

(** ** Subscribe(Fetch(domain)) *)

Section first_seen_more.
Implicit Types (l : list Item) (x : Item).

Lemma first_seen_order_id l : NoDup (GUID <$> l) → sub.first_seen_order l = l.
Proof.
  induction l as [|x l IH]; [done|]. cbn. intros [Hx Hl]%NoDup_cons.
  rewrite IH by done. f_equal. clear IH Hl.
  induction l as [|y l IH]; [done|]. cbn in Hx.
  rewrite not_elem_of_cons in Hx. destruct Hx as [Hne Hx].
  rewrite filter_cons_True by congruence. f_equal. by apply IH.
Qed.

Lemma first_seen_order_app_seen l l0 :
  (∀ x, x ∈ l0 → GUID x ∈ GUID <$> l) →
  sub.first_seen_order (l ++ l0) = sub.first_seen_order l.
Proof.
  revert l. induction l0 as [|x l0 IH]; intros l Hin; [by rewrite app_nil_r|].
  replace (l ++ x :: l0) with ((l ++ [x]) ++ l0) by by rewrite <-app_assoc.
  rewrite IH.
  - rewrite first_seen_order_snoc, decide_True; [done|]. apply Hin. left.
  - intros y Hy. rewrite fmap_app, elem_of_app. left. apply Hin. by right.
Qed.

End first_seen_more.

Section fetched_sub_properties.
Import fetched_sub.
Implicit Types (st : state) (domain : string).

Lemma new_item_fresh domain m :
  GUID (fakeFetcher.new_item domain m)
  ∉ GUID <$> (fakeFetcher.new_item domain <$> seq 0 m).
Proof.
  intros (x & Hx & (k & -> & Hk)%list_elem_of_fmap)%list_elem_of_fmap.
  apply new_item_GUID_inj in Hx. apply elem_of_seq in Hk. lia.
Qed.

Lemma linked_enqueue domain (d p : list Item) seen fetched :
  let m := length (d ++ p) in
  d ++ p = fakeFetcher.new_item domain <$> seq 0 m →
  sub.seen_of seen (d ++ p) →
  fetched = [fakeFetcher.new_item domain m]
  ∨ fetched = fakeFetcher.new_item domain <$> seq 0 (S m) →
  d ++ (sub.enqueue fetched p seen).1 = fakeFetcher.new_item domain <$> seq 0 (S m)
  ∧ sub.seen_of (sub.enqueue fetched p seen).2 (d ++ (sub.enqueue fetched p seen).1).
Proof.
  intros m Hq Hseen Hf.
  assert (d ++ p = sub.first_seen_order (d ++ p)) as Hfso.
  { rewrite first_seen_order_id; [done|]. rewrite Hq. apply new_items_NoDup. }
  destruct (enqueue_first_seen fetched (d ++ p) d p seen Hfso Hseen) as [He Hs].
  split; [|exact Hs]. rewrite He. clear He Hs.
  assert (sub.first_seen_order ((d ++ p) ++ [fakeFetcher.new_item domain m])
          = fakeFetcher.new_item domain <$> seq 0 (S m)) as Hone.
  { rewrite first_seen_order_snoc, decide_False, <-Hfso.
    - by rewrite seq_S, fmap_app, <-Hq.
    - rewrite Hq. apply new_item_fresh. }
  destruct Hf as [->| ->]; [exact Hone|].
  rewrite seq_S, fmap_app, <-Hq. cbn [fmap list_fmap]. rewrite app_assoc.
  rewrite first_seen_order_snoc, decide_False.
  - rewrite first_seen_order_app_seen, <-Hfso; [done|].
    intros x Hx. by apply list_elem_of_fmap_2.
  - rewrite fmap_app, elem_of_app, Hq. intros [H|H]; by apply new_item_fresh in H.
Qed.

Lemma sub_step_frame s ev s' :
  sub.step s ev = Some s' →
  (∀ r, ev ≠ sub.FetchReturns r) → (∀ r now, ev ≠ sub.FetchDone r now) →
  sub.delivered s' ++ sub.pending s' = sub.delivered s ++ sub.pending s
  ∧ sub.seen s' = sub.seen s ∧ sub.err s' = sub.err s
  ∧ (sub.fetchDone s' = sub.fetchDone s
     ∨ sub.fetchDone s = None ∧ sub.fetchDone s' = Some []).
Proof.
  intros Hs Hr Hd. sub_step_inv Hs; cbn; rewrite <-?app_assoc; auto 10.
  all: exfalso; first [by eapply Hr | by eapply Hd].
Qed.

Lemma sub_step_pending_le s ev s' :
  sub.step s ev = Some s' → (∀ r now, ev ≠ sub.FetchDone r now) →
  (length (sub.pending s') ≤ length (sub.pending s))%nat.
Proof.
  intros Hs Hd. sub_step_inv Hs; cbn; try lia.
  all: exfalso; by eapply Hd.
Qed.

Lemma step_Loop s f ev st' :
  step (s, f) (Loop ev) = Some st' →
  (∀ r, ev ≠ sub.FetchReturns r) ∧ sub.step s ev = Some st'.1 ∧ st'.2 = f.
Proof.
  cbn. destruct ev; try done;
    (destruct (sub.step s _) as [s'|] eqn:Hs; [|done]); cbn; by intros [= <-].
Qed.

Lemma linked_step domain st ev st' :
  sub.fetch_inv st.1 → linked domain st → step st ev = Some st' → linked domain st'.
Proof.
  destruct st as [s f]. intros Hfi (Hq & Hseen & Herr & Hch & Hfd) Hstep.
  unfold linked, sub.fetch_inv in *. cbn [fst snd] in *.
  destruct ev as [ev|e].
  - apply step_Loop in Hstep as (Hnr & Hs & Hf). destruct st' as [s' f'].
    cbn [fst snd] in *. subst f'.
    assert ((∃ r now, ev = sub.FetchDone r now) ∨ ∀ r now, ev ≠ sub.FetchDone r now)
      as [(r & now & ->)|Hnd] by (destruct ev; eauto).
    + (* FetchDone *)
      unfold sub.step in Hs. destruct (sub.at_ s); try done.
      destruct (sub.fetchDone s) as [[|result buf]|] eqn:Hbuf; try done.
      case_decide; [subst r|done].
      destruct Hfd as (Hitems & Hrerr & Hfetched). rewrite Hrerr in Hs.
      destruct (linked_enqueue domain _ _ _ _ Hq Hseen Hfetched) as [He Hs'].
      destruct (sub.enqueue _ _ _) as [p' seen'] eqn:Henq. injection Hs as <-.
      cbn [sub.delivered sub.pending sub.seen sub.err sub.fetchDone fst snd] in *.
      rewrite He, length_fmap, length_seq. by rewrite He in Hs'.
    + destruct (sub_step_frame _ _ _ Hs Hnr Hnd) as (Hq' & Hseen' & Herr' & Hfd').
      rewrite Hq', Hseen', Herr'. repeat (split; [done|]).
      destruct Hfd' as [->|[Hnil ->]]; [done|]. by rewrite Hnil in Hfd.
  - cbn in Hstep. destruct (sub.fetching s); [done|].
    destruct (sub.fetchDone s) as [[|? ?]|]; try done. cbn in Hstep.
    injection Hstep as <-.
    cbn [sub.delivered sub.pending sub.seen sub.err sub.fetchDone fst snd
         fakeFetcher.items fakeFetcher.channel app sub.fetchResult.err
         sub.fetchResult.fetched].
    rewrite Hfd, length_fmap, length_seq. repeat (split; [done|]).
    rewrite Hch, seq_S, fmap_app. split; [done|]. split; [done|].
    destruct (fakeFetcher.FakeDuplicates e); [by right|by left].
Qed.

Lemma step_sub st ev st' :
  step st ev = Some st' → ∃ sev, sub.step st.1 sev = Some st'.1.
Proof.
  destruct st as [s f], ev as [ev|e].
  - intros (_ & Hs & _)%step_Loop. eauto.
  - unfold step. cbn [fst snd].
    destruct (fakeFetcher.Fetch e f) as [[[fetched next] err] f'].
    destruct (sub.step s (sub.FetchReturns (sub.fetchResult.mk fetched next err)))
      as [s'|] eqn:Hs; [|done].
    cbn. intros [= <-]. eauto.
Qed.

Lemma linked_run domain evs st :
  run (Subscribe_Fetch domain) evs = Some st →
  linked domain st ∧ sub.fetch_inv st.1
  ∧ (sub.closer st.1 = sub.NotCalled ∨ sub.closer st.1 = sub.SendClosing
     ∨ sub.closer st.1 = sub.RecvErr ∨ sub.closer st.1 = sub.Closed None).
Proof.
  revert evs st. apply run_of_ind.
  - split; [|split; [done|by left]]. unfold linked. cbn. split; [done|].
    split; [|done]. intros g. cbn. rewrite lookup_empty, elem_of_nil. cbn. intuition congruence.
  - intros evs st ev st' _ (Hl & Hf & Hc) Hstep.
    pose proof (linked_step _ _ _ _ Hf Hl Hstep) as Hl'.
    destruct (step_sub _ _ _ Hstep) as [sev Hs].
    split; [done|]. split; [by eapply fetch_inv_step|].
    destruct Hl as (_ & _ & Herr & _).
    clear -Hs Hc Herr. destruct st as [s f], st' as [s' f']. cbn in *.
    sub_step_inv Hs; cbn in *; subst; intuition congruence.
Qed.

(** X5. Subscribe(Fetch(domain)): whatever FakeDuplicates is at each call,
    the consumer receives Item 0, Item 1, ... of the domain, in this order
    and each once; the items enqueued continue the sequence, and the
    fetcher has generated at most one item more than were enqueued. *)
Theorem fetched_sub_delivers_items_in_order domain evs st :
  run (Subscribe_Fetch domain) evs = Some st →
  sub.delivered st.1
  = fakeFetcher.new_item domain <$> seq 0 (length (sub.delivered st.1))
  ∧ sub.pending st.1
    = fakeFetcher.new_item domain
        <$> seq (length (sub.delivered st.1)) (length (sub.pending st.1))
  ∧ (length (sub.delivered st.1) + length (sub.pending st.1)
     ≤ length (fakeFetcher.items st.2)
     ≤ S (length (sub.delivered st.1) + length (sub.pending st.1)))%nat.
Proof.
  intros Hrun. destruct (linked_run _ _ _ Hrun) as ((Hq & _ & _ & _ & Hfd) & _ & _).
  cbn zeta in *. rewrite length_app in *.
  rewrite seq_app, fmap_app in Hq.
  apply app_inj_1 in Hq as [Hd Hp]; [|by rewrite length_fmap, length_seq].
  split; [exact Hd|]. split; [exact Hp|].
  destruct (sub.fetchDone st.1) as [[|r ?]|]; [|destruct Hfd as [Hfd _]|];
    rewrite Hfd, length_fmap, length_seq; lia.
Qed.

(** With FakeDuplicates set, after two fetches and two reads. *)
Lemma fetched_sub_delivers_items_in_order_witness :
  ∃ st, run (Subscribe_Fetch "blog.golang.org") scenario_more.two_fetches = Some st
        ∧ sub.delivered st.1
          = [ mkItem "Item 0" "blog.golang.org" "blog.golang.org/Item 0";
              mkItem "Item 1" "blog.golang.org" "blog.golang.org/Item 1" ].
Proof.
  eexists. split; [vm_compute; reflexivity|].
  refine (proj1 (fetched_sub_delivers_items_in_order "blog.golang.org"
                   scenario_more.two_fetches _ _)).
  vm_compute. reflexivity.
Defined.

(** X6. Subscribe(Fetch(domain)): pending never holds more than maxPending
    items, also with FakeDuplicates set, when a fetch returns every item
    generated so far; no error is ever recorded, and Close, once it has
    returned, has returned nil. *)
Theorem fetched_sub_pending_within_maxPending domain evs st :
  run (Subscribe_Fetch domain) evs = Some st →
  (length (sub.pending st.1) ≤ sub.maxPending)%nat
  ∧ sub.err st.1 = None
  ∧ (∀ e, sub.closer st.1 = sub.Closed e → e = None).
Proof.
  intros Hrun. split; [|split].
  - revert evs st Hrun.
    apply (run_of_ind step (Subscribe_Fetch domain)
             (fun _ st => (length (sub.pending st.1) ≤ sub.maxPending)%nat)).
    { cbn. unfold sub.maxPending. lia. }
    intros evs st ev st' Hrun IH Hstep.
    destruct (linked_run _ _ _ Hrun) as ((Hq & Hseen & _ & _ & Hfd) & Hf & _).
    destruct (step_sub _ _ _ Hstep) as [sev Hs].
    destruct st as [s f], st' as [s' f']. cbn [fst snd] in *.
    unfold sub.fetch_inv in Hf.
    assert ((∃ r now, sev = sub.FetchDone r now) ∨ ∀ r now, sev ≠ sub.FetchDone r now)
      as [(r & now & ->)|Hnd] by (destruct sev; eauto).
    2: { pose proof (sub_step_pending_le _ _ _ Hs Hnd). lia. }
    unfold sub.step in Hs. destruct (sub.at_ s); try done.
    destruct (sub.fetchDone s) as [[|result buf]|]; try done.
    case_decide; [subst r|done]. destruct Hfd as (_ & Hrerr & Hfetched).
    rewrite Hrerr in Hs.
    destruct (linked_enqueue domain _ _ _ _ Hq Hseen Hfetched) as [He _].
    destruct (sub.enqueue _ _ _) as [p' seen'] eqn:Henq. injection Hs as <-.
    cbn [sub.pending sub.delivered fst snd] in *. apply (f_equal length) in He.
    rewrite length_app, length_fmap, length_seq, length_app in He.
    unfold sub.maxPending in *. lia.
  - by destruct (linked_run _ _ _ Hrun) as ((_ & _ & Herr & _) & _ & _).
  - intros e He. destruct (linked_run _ _ _ Hrun) as (_ & _ & Hc).
    rewrite He in Hc. intuition congruence.
Qed.

Lemma fetched_sub_pending_within_maxPending_witness :
  ∃ st, run (Subscribe_Fetch "blog.golang.org") scenario_more.two_fetches = Some st
        ∧ (length (sub.pending st.1) ≤ sub.maxPending)%nat.
Proof.
  eexists. split; [vm_compute; reflexivity|].
  refine (proj1 (fetched_sub_pending_within_maxPending "blog.golang.org"
                   scenario_more.two_fetches _ _)).
  vm_compute. reflexivity.
Defined.

End fetched_sub_properties.

(** ** naiveSub: what the stream carries *)

Section naiveSub_stream.
Import naiveSub.

(** X7. naiveSub.loop sends every item of every successful fetch, in the
    order fetched and without looking at GUIDs: what the consumer has
    received, followed by the rest of the batch being sent, is the
    concatenation of the fetched batches; nothing is sent after a failed
    fetch, and nothing is skipped. *)
Theorem naiveSub_delivers_every_fetched_item evs s :
  run NaiveSubscribe evs = Some s →
  delivered s ++ naiveSub_to_send s = naiveSub_fetched_items evs
  ∧ delivered s `prefix_of` naiveSub_fetched_items evs.
Proof.
  intros Hrun.
  assert (delivered s ++ naiveSub_to_send s = naiveSub_fetched_items evs) as H.
  { revert evs s Hrun.
    apply (run_of_ind step NaiveSubscribe
             (fun evs s => delivered s ++ naiveSub_to_send s = naiveSub_fetched_items evs));
      [done|].
    intros evs s ev s' _ IH Hstep.
    unfold naiveSub_fetched_items, naiveSub_to_send in *.
    rewrite omap_app, concat_app, <-IH. clear IH.
    destruct ev; unfold step in Hstep; repeat case_match; simplify_eq; cbn in *;
      simplify_eq; rewrite ?app_nil_r, <-?app_assoc; done. }
  split; [exact H|]. rewrite <-H. by apply prefix_app_r.
Qed.

(** The same item fetched twice and read twice. *)
Lemma naiveSub_delivers_every_fetched_item_witness :
  ∃ s, run NaiveSubscribe scenario_more.naive_repeated = Some s
       ∧ delivered s = [scenario.A; scenario.A].
Proof.
  eexists. split; [vm_compute; reflexivity|].
  refine (eq_trans _ (proj1 (naiveSub_delivers_every_fetched_item
                               scenario_more.naive_repeated _ _)));
    [|vm_compute; reflexivity].
  reflexivity.
Defined.

End naiveSub_stream.

(** ** subscription: the first for-select loop *)

Ltac subscription_step_inv H :=
  match type of H with
  | subscription.step ?s ?ev = Some _ =>
      destruct s, ev; unfold subscription.step in H;
      cbn [subscription.pending subscription.next subscription.err
           subscription.at_ subscription.updates_closed subscription.delivered
           subscription.closer] in H;
      repeat match type of H with
             | context [match ?x with _ => _ end] => destruct x eqn:?
             | context [if ?x then _ else _] => destruct x eqn:?
             end;
      try discriminate H; injection H as <-; simplify_eq
  end.

Section subscription_properties.
Import subscription.

(** X8. The loop of src/subscription.go does not look at GUIDs: the items
    delivered followed by the pending ones are the concatenation of the
    successfully fetched batches, repeated items included, in the order
    fetched. *)
Theorem subscription_keeps_every_fetched_item evs s :
  run Subscribe evs = Some s →
  delivered s ++ pending s = fetched_items evs
  ∧ delivered s `prefix_of` fetched_items evs.
Proof.
  intros Hrun.
  assert (delivered s ++ pending s = fetched_items evs) as H.
  { revert evs s Hrun.
    apply (run_of_ind step Subscribe
             (fun evs s => delivered s ++ pending s = fetched_items evs)); [done|].
    intros evs s ev s' _ IH Hstep. unfold fetched_items in *.
    rewrite omap_app, concat_app, <-IH. clear IH.
    subscription_step_inv Hstep; cbn; rewrite ?app_nil_r, <-?app_assoc; done. }
  split; [exact H|]. rewrite <-H. by apply prefix_app_r.
Qed.

(** A fetched twice and read twice. *)
Lemma subscription_keeps_every_fetched_item_witness :
  ∃ s, run Subscribe (fill scenario.A 2 ++ [SendUpdate; SendUpdate]) = Some s
       ∧ delivered s = [scenario.A; scenario.A] ∧ pending s = [].
Proof.
  eexists. split; [vm_compute; reflexivity|]. split; [|reflexivity].
  refine (eq_trans _ (proj1 (subscription_keeps_every_fetched_item
                               (fill scenario.A 2 ++ [SendUpdate; SendUpdate]) _ _)));
    [|vm_compute; reflexivity].
  reflexivity.
Defined.

Lemma subscription_fill it n : ∀ s,
  at_ s = Select → next s = 0 →
  ∃ s', run s (fill it n) = Some s'
        ∧ pending s' = pending s ++ replicate n it
        ∧ at_ s' = Select ∧ next s' = 0 ∧ delivered s' = delivered s.
Proof.
  induction n as [|n IH]; intros s Hat Hnext.
  - exists s. by rewrite app_nil_r.
  - destruct s as [p nx e a u d c]. cbn in Hat, Hnext. subst a nx.
    destruct (IH {| pending := p ++ [it]; next := 0; err := None; at_ := Select;
                    updates_closed := u; delivered := d; closer := c |}
                 eq_refl eq_refl) as (s' & Hrun & Hp & Hat & Hn & Hd).
    exists s'. split.
    + change (fill it (S n))
        with (StartFetch 0 0 :: FetchReturns [it] 0 None 0 :: fill it n).
      unfold run. rewrite !run_of_cons. exact Hrun.
    + cbn in *. by rewrite Hp, <-app_assoc.
Qed.

(** X9. The same loop arms its fetch timer in every iteration, whatever
    the length of the queue: with a consumer that does not read, pending
    grows without bound (every length is reached). *)
Theorem subscription_pending_unbounded (it : Item) (n : nat) :
  ∃ s, run Subscribe (fill it n) = Some s
       ∧ pending s = replicate n it ∧ delivered s = [].
Proof.
  destruct (subscription_fill it n Subscribe eq_refl eq_refl)
    as (s & Hrun & Hp & _ & _ & Hd).
  exists s. done.
Qed.

End subscription_properties.

(** ** naiveMerge: what the merged stream carries *)

Section naiveMerge_stream.
Import naiveMerge.

Lemma holding_split (fw : list forwarder) i x :
  fw !! i = Some x →
  fw ≫= naiveMerge_held
  = (take i fw ≫= naiveMerge_held) ++ naiveMerge_held x
    ++ (drop (S i) fw ≫= naiveMerge_held).
Proof.
  intros Hi. rewrite <-(take_drop_middle fw i x Hi) at 1.
  by rewrite bind_app, bind_cons.
Qed.

Lemma holding_insert (fw : list forwarder) i x y :
  fw !! i = Some x →
  <[i := y]> fw ≫= naiveMerge_held
  = (take i fw ≫= naiveMerge_held) ++ naiveMerge_held y
    ++ (drop (S i) fw ≫= naiveMerge_held).
Proof.
  intros Hi. rewrite insert_take_drop by (by eapply lookup_lt_Some).
  by rewrite bind_app, bind_cons.
Qed.

Lemma sent_snoc evs ev :
  naiveMerge_sent (evs ++ [ev])
  = naiveMerge_sent evs ++ match ev with ChildSends _ it => [it] | _ => [] end.
Proof. unfold naiveMerge_sent. rewrite omap_app. by destruct ev. Qed.

(** X10. The merged stream carries what the children sent, nothing else
    and nothing twice: the items delivered together with the items the
    forwarders hold are, up to order, the items the children sent. *)
Theorem naiveMerge_delivers_what_children_sent n evs s :
  run (NaiveMerge n) evs = Some s →
  delivered s ++ naiveMerge_holding s ≡ₚ naiveMerge_sent evs.
Proof.
  revert evs s.
  apply (run_of_ind step (NaiveMerge n)
           (fun evs s => delivered s ++ naiveMerge_holding s ≡ₚ naiveMerge_sent evs)).
  - cbn. unfold naiveMerge_holding. cbn. induction n; [done|]. by cbn.
  - intros evs s ev s' _ IH Hstep. rewrite sent_snoc, <-IH. clear IH.
    unfold naiveMerge_holding.
    merge_step_inv Hstep; cbn [delivered forwarders]; rewrite ?app_nil_r; try done.
    + (* ChildSends *)
      erewrite holding_insert, (holding_split forwarders0) by done. cbn.
      solve_Permutation.
    + (* ForwarderReturns *)
      erewrite holding_insert, (holding_split forwarders0) by done. done.
    + (* Forward *)
      erewrite holding_insert, (holding_split forwarders0) by done. cbn.
      solve_Permutation.
Qed.

Lemma naiveMerge_delivers_what_children_sent_witness :
  ∃ s, run (NaiveMerge 2) scenario_more.merge_two = Some s
       ∧ delivered s ++ naiveMerge_holding s
         ≡ₚ [scenario.B; scenario.A; scenario.A].
Proof.
  eexists. split; [vm_compute; reflexivity|].
  refine (naiveMerge_delivers_what_children_sent 2 scenario_more.merge_two _ _).
  vm_compute. reflexivity.
Defined.

End naiveMerge_stream.

Section naiveMerge_order.
Import naiveMerge.
Context (P : Item → Prop) `{!∀ x, Decision (P x)}.

Lemma sent_by_snoc i evs ev :
  naiveMerge_sent_by i (evs ++ [ev])
  = naiveMerge_sent_by i evs
    ++ match ev with
       | ChildSends j it => if decide (j = i) then [it] else []
       | _ => []
       end.
Proof.
  unfold naiveMerge_sent_by. rewrite omap_app. destruct ev; try done.
  cbn. by case_decide.
Qed.

(** What a forwarder holds was sent by its child. *)
Lemma held_was_sent n evs s :
  run (NaiveMerge n) evs = Some s →
  ∀ j it, forwarders s !! j = Some (Forwarding it) → ChildSends j it ∈ evs.
Proof.
  revert evs s.
  apply (run_of_ind step (NaiveMerge n)
           (fun evs s => ∀ j it, forwarders s !! j = Some (Forwarding it) →
                                 ChildSends j it ∈ evs)).
  - intros j it Hj. cbn in Hj. apply lookup_replicate in Hj as [? _]. done.
  - intros evs s ev s' _ IH Hstep j it Hj. rewrite elem_of_app.
    merge_step_inv Hstep; cbn in *; eauto.
    + destruct (decide (i = j)) as [->|Hne].
      * rewrite list_lookup_insert_eq in Hj by (by eapply lookup_lt_Some).
        right. injection Hj as ->. left.
      * rewrite list_lookup_insert_ne in Hj by done. eauto.
    + destruct (decide (i = j)) as [->|Hne].
      * by rewrite list_lookup_insert_eq in Hj by (by eapply lookup_lt_Some).
      * rewrite list_lookup_insert_ne in Hj by done. eauto.
    + destruct (decide (i = j)) as [->|Hne].
      * by rewrite list_lookup_insert_eq in Hj by (by eapply lookup_lt_Some).
      * rewrite list_lookup_insert_ne in Hj by done. eauto.
Qed.

(** X11. The merged stream keeps the order of each child.  When the items
    of child [i] can be told from those of the other children (by [P], for
    instance by their Channel), the items of child [i] on the merged
    stream, followed by the one its forwarder holds, are the items child
    [i] sent, in the order sent. *)
Theorem naiveMerge_keeps_order_of_each_child n i evs s :
  run (NaiveMerge n) evs = Some s →
  (∀ j it, ChildSends j it ∈ evs → (P it ↔ j = i)) →
  filter P (delivered s) ++ naiveMerge_held_by i s = naiveMerge_sent_by i evs.
Proof.
  revert evs s.
  apply (run_of_ind step (NaiveMerge n)
           (fun evs s =>
              (∀ j it, ChildSends j it ∈ evs → (P it ↔ j = i)) →
              filter P (delivered s) ++ naiveMerge_held_by i s
              = naiveMerge_sent_by i evs)).
  - intros _. unfold naiveMerge_held_by. cbn.
    destruct (replicate n Receiving !! i) as [fw|] eqn:Hfw; [|done].
    by apply lookup_replicate in Hfw as [-> _].
  - intros evs s ev s' Hrun IH Hstep HP.
    assert (∀ j it, ChildSends j it ∈ evs → (P it ↔ j = i)) as HP'.
    { intros j it Hin. apply HP, elem_of_app. by left. }
    specialize (IH HP'). pose proof (held_was_sent _ _ _ Hrun) as Hheld.
    rewrite sent_by_snoc, <-IH. clear IH. unfold naiveMerge_held_by in *.
    merge_step_inv Hstep; cbn [delivered forwarders] in *; rewrite ?app_nil_r;
      try done.
    + (* ChildSends *)
      case_decide as Hi; [subst i0|].
      * rewrite list_lookup_insert_eq by (by eapply lookup_lt_Some).
        match goal with H : forwarders0 !! i = Some Receiving |- _ => rewrite H end.
        cbn. by rewrite app_nil_r.
      * rewrite list_lookup_insert_ne by done. by rewrite app_nil_r.
    + (* ForwarderReturns *)
      destruct (decide (i0 = i)) as [->|Hne].
      * rewrite list_lookup_insert_eq by (by eapply lookup_lt_Some).
        match goal with H : forwarders0 !! i = Some Receiving |- _ => by rewrite H end.
      * by rewrite list_lookup_insert_ne by done.
    + (* Forward *)
      match goal with
      | H : forwarders0 !! i0 = Some (Forwarding ?it) |- _ =>
          pose proof (HP' i0 it (Hheld i0 it H)) as Hit;
          rewrite filter_app, filter_cons, filter_nil;
          destruct (decide (i0 = i)) as [->|Hne];
          [ rewrite list_lookup_insert_eq by (by eapply lookup_lt_Some);
            rewrite H, decide_True by (by apply Hit); cbn;
            by rewrite !app_nil_r
          | rewrite list_lookup_insert_ne by done;
            rewrite decide_False by (by rewrite Hit); by rewrite app_nil_r ]
      end.
Qed.

End naiveMerge_order.

(** The items of child 0 have Title A, those of child 1 Title B. *)
Lemma naiveMerge_keeps_order_of_each_child_witness :
  ∃ s, naiveMerge.run (naiveMerge.NaiveMerge 2) scenario_more.merge_two = Some s
       ∧ filter (fun it => Title it = "A") (naiveMerge.delivered s)
         ++ naiveMerge_held_by 0 s = [scenario.A; scenario.A].
Proof.
  eexists. split; [vm_compute; reflexivity|].
  refine (naiveMerge_keeps_order_of_each_child (fun it => Title it = "A")
            2 0 scenario_more.merge_two _ _ _).
  - vm_compute. reflexivity.
  - intros j it Hin. unfold scenario_more.merge_two in Hin.
    rewrite !elem_of_cons, elem_of_nil in Hin.
    destruct Hin as [H|[H|[H|[H|[H|[]]]]]]; simplify_eq; by split.
Defined.

Section naiveMerge_goroutines.
Import naiveMerge.

Lemma held_by_length i s : (length (naiveMerge_held_by i s) ≤ 1)%nat.
Proof.
  unfold naiveMerge_held_by. destruct (forwarders s !! i) as [[]|]; cbn; lia.
Qed.

Lemma held_by_Forwarding i s it :
  naiveMerge_held_by i s = [it] ↔ forwarders s !! i = Some (Forwarding it).
Proof.
  unfold naiveMerge_held_by.
  destruct (forwarders s !! i) as [[]|]; cbn; split; intros; by simplify_eq.
Qed.

(** As long as nothing is received from m.updates and it is not closed,
    what a forwarder holds is what it held before and what its child sent
    since. *)
Lemma no_reader_run s evs s' :
  run s evs = Some s' →
  (∃ l, delivered s' = delivered s ++ l)
  ∧ (delivered s' = delivered s → updates_closed s' = false →
     ∀ i, naiveMerge_held_by i s'
          = naiveMerge_held_by i s ++ naiveMerge_sent_by i evs).
Proof.
  revert evs s'. apply run_of_ind.
  - split; [by exists []; rewrite app_nil_r|]. intros _ _ i. by rewrite app_nil_r.
  - intros evs s1 ev s2 _ [[l Hl] IH] Hstep. split.
    { merge_step_inv Hstep; cbn in *; eauto.
      eexists. by rewrite Hl, <-app_assoc. }
    intros Hd Hu i. rewrite sent_by_snoc.
    merge_step_inv Hstep; cbn in *; try done;
      try (rewrite app_nil_r; by apply IH).
    + (* ChildSends *)
      specialize (IH Hd Hu). unfold naiveMerge_held_by in *. cbn in *.
      case_decide as Hi.
      * subst i0. pose proof (IH i) as IHi.
        match goal with H : forwarders0 !! i = Some Receiving |- _ =>
          rewrite H in IHi; rewrite list_lookup_insert_eq by (by eapply lookup_lt_Some)
        end.
        cbn in *. symmetry in IHi. apply app_eq_nil in IHi as [-> ->]. done.
      * rewrite list_lookup_insert_ne by done. rewrite app_nil_r. apply IH.
    + (* ForwarderReturns *)
      specialize (IH Hd Hu). unfold naiveMerge_held_by in *. cbn in *.
      rewrite app_nil_r. destruct (decide (i0 = i)) as [->|Hi].
      * rewrite <-IH.
        match goal with H : forwarders0 !! i = Some Receiving |- _ =>
          rewrite H; rewrite list_lookup_insert_eq by (by eapply lookup_lt_Some)
        end. done.
      * rewrite list_lookup_insert_ne by done. apply IH.
    + (* Forward: an item was received *)
      exfalso. rewrite Hl, <-app_assoc in Hd.
      apply (f_equal length) in Hd. rewrite !length_app in Hd. cbn in Hd. lia.
Qed.

(** X12. Without a reader the merge stands still ("goroutines may block
    forever on m.updates if the receiver stops receiving").  Through any
    run in which nothing is received from m.updates and m.updates is not
    closed, a forwarder that holds an item stays at m.updates <- it, and its
    child can send nothing more; a child whose forwarder was free can send
    one item, which the forwarder then holds.  This wait ends with
    close(m.updates) only by a panic: once m.updates is closed, the send of
    a forwarder that holds an item is enabled and panics. *)
Theorem naiveMerge_forwarder_waits_for_reader s evs s' :
  run s evs = Some s' →
  (delivered s' = delivered s → updates_closed s' = false →
   ∀ i, naiveMerge_held_by i s' = naiveMerge_held_by i s ++ naiveMerge_sent_by i evs
        ∧ (length (naiveMerge_sent_by i evs) ≤ 1)%nat
        ∧ ∀ it, forwarders s !! i = Some (Forwarding it) →
                forwarders s' !! i = Some (Forwarding it)
                ∧ naiveMerge_sent_by i evs = [])
  ∧ (updates_closed s' = true → panicked s' = false →
     ∀ i it, forwarders s' !! i = Some (Forwarding it) →
             ∃ s'', step s' (Forward i) = Some s''
                    ∧ panicked s'' = true
                    ∧ delivered s'' = delivered s').
Proof.
  intros Hrun. split.
  - intros Hd Hu i. destruct (no_reader_run _ _ _ Hrun) as [_ Heq].
    specialize (Heq Hd Hu i). split; [exact Heq|].
    pose proof (held_by_length i s') as Hlen.
    rewrite Heq, length_app in Hlen. split; [lia|].
    intros it Hit. apply held_by_Forwarding in Hit. rewrite Hit in Heq, Hlen.
    destruct (naiveMerge_sent_by i evs); [|cbn in Hlen; lia].
    split; [|done]. by apply held_by_Forwarding.
  - intros Hu Hp i it Hi. unfold step. rewrite Hp, Hi, Hu.
    eexists. split; [reflexivity|]. done.
Qed.

(** Two children and no reader: child 0 has sent A; child 1 sends B and
    Close starts closing the children; forwarder 0 still holds A. *)
Lemma naiveMerge_forwarder_waits_for_reader_witness :
  ∃ s', run scenario_more.merge_holding_A scenario_more.merge_no_reader = Some s'
        ∧ forwarders s' !! 0%nat = Some (Forwarding scenario.A)
        ∧ naiveMerge_sent_by 0 scenario_more.merge_no_reader = [].
Proof.
  eexists. split; [vm_compute; reflexivity|].
  refine (proj2 (proj2 (proj1 (naiveMerge_forwarder_waits_for_reader
            scenario_more.merge_holding_A scenario_more.merge_no_reader
            (default scenario_more.merge_holding_A
               (run scenario_more.merge_holding_A scenario_more.merge_no_reader))
            _) eq_refl eq_refl 0%nat))
            scenario.A eq_refl).
  vm_compute. reflexivity.
Defined.

(** X13. NaiveMerge starts one forwarder per child.  A forwarder exits
    only once the stream of its child is closed.  A goroutine panics only
    on m.updates closed, with an item in its hands.  m.updates is closed
    only by Close, after the Close of every child has returned; Close is
    then at its return or has returned. *)
Theorem naiveMerge_exits_and_panics n evs s :
  run (NaiveMerge n) evs = Some s →
  length (forwarders s) = n
  ∧ (∀ i, forwarders s !! i = Some Exited →
          ∃ c, subs s !! i = Some c ∧ stream_closed c = true)
  ∧ (panicked s = true →
       updates_closed s = true ∧ ∃ i it, forwarders s !! i = Some (Forwarding it))
  ∧ (updates_closed s = true →
       (∃ e, closer s = Returning e ∨ closer s = Closed e)
       ∧ ∀ c, c ∈ subs s → is_Some (close_result c)).
Proof.
  intros Hrun. split; [|split; [|split]].
  - revert evs s Hrun.
    apply (run_of_ind step (NaiveMerge n) (fun _ s => length (forwarders s) = n)).
    { apply length_replicate. }
    intros evs s ev s' _ IH Hstep.
    merge_step_inv Hstep; cbn in *; by rewrite ?length_insert.
  - revert evs s Hrun.
    apply (run_of_ind step (NaiveMerge n)
             (fun _ s => ∀ i, forwarders s !! i = Some Exited →
                              ∃ c, subs s !! i = Some c ∧ stream_closed c = true)).
    { intros i Hi. cbn in Hi. by apply lookup_replicate in Hi as [? _]. }
    intros evs s ev s' _ IH Hstep i Hi.
    merge_step_inv Hstep; cbn in *; eauto.
    all: destruct (decide (i0 = i)) as [->|Hne];
      [ first
          [ by eauto
          | by rewrite list_lookup_insert_eq in Hi by (by eapply lookup_lt_Some)
          | destruct (IH i Hi) as (c' & Hc' & Hs');
            rewrite ?list_lookup_insert_eq by (by eapply lookup_lt_Some);
            simplify_eq; eauto ]
      | rewrite ?list_lookup_insert_ne in Hi by done;
        destruct (IH i Hi) as (c' & Hc' & Hs');
        rewrite ?list_lookup_insert_ne by done; eauto ].
  - revert evs s Hrun.
    apply (run_of_ind step (NaiveMerge n)
             (fun _ s => panicked s = true →
                updates_closed s = true
                ∧ ∃ i it, forwarders s !! i = Some (Forwarding it))); [done|].
    intros evs s ev s' _ IH Hstep Hp.
    merge_step_inv Hstep; cbn in *; try done. eauto.
  - intros Hu. destruct (merge_inv_run _ _ _ Hrun) as [_ Hinv].
    destruct (closer s); destruct Hinv as [Hinv ?]; try (intuition congruence).
    all: split; [eauto|]; intros c Hc;
      destruct Hinv as (rs & _ & _ & Hcs & _);
      rewrite Nat.sub_diag, app_nil_r in Hcs;
      apply (list_elem_of_fmap_2 close_result) in Hc; rewrite Hcs in Hc;
      apply list_elem_of_fmap in Hc as (r & -> & _); eauto.
Qed.

(** One child, whose forwarder holds A when Close closes m.updates: the
    panic comes before Close has returned. *)
Lemma naiveMerge_exits_and_panics_witness :
  ∃ s, run (NaiveMerge 1) scenario_more.merge_panic_before_return = Some s
       ∧ panicked s = true
       ∧ closer s = Returning None
       ∧ updates_closed s = true.
Proof.
  eexists. split; [vm_compute; reflexivity|]. split; [reflexivity|].
  split; [reflexivity|].
  refine (proj1 (proj1 (proj2 (proj2 (naiveMerge_exits_and_panics 1
            scenario_more.merge_panic_before_return
            (default (NaiveMerge 1)
               (run (NaiveMerge 1) scenario_more.merge_panic_before_return))
            _))) eq_refl)).
  vm_compute. reflexivity.
Defined.

End naiveMerge_goroutines.

Section sub_goroutine.
Import sub.

(** X14. The send of a fetch goroutine never blocks: fetchDone has room
    for its result in every state in which the goroutine is alive, also
    when the loop has returned in the meantime; the send changes neither
    the queue nor the stream, and ends the goroutine. *)
Theorem sub_fetch_goroutine_can_finish evs s :
  run Subscribe evs = Some s →
  fetching s = 1%nat →
  ∀ r, ∃ s', step s (FetchReturns r) = Some s'
             ∧ fetching s' = 0%nat
             ∧ fetchDone s' = Some [r]
             ∧ at_ s' = at_ s
             ∧ pending s' = pending s
             ∧ delivered s' = delivered s
             ∧ updates_closed s' = updates_closed s.
Proof.
  intros Hrun Hf r. pose proof (fetch_inv_run _ _ Hrun) as Hinv.
  unfold fetch_inv in Hinv. unfold step. rewrite Hf.
  destruct (fetchDone s) as [buf|]; [|lia].
  destruct buf; [|cbn in Hinv; lia].
  eexists. split; [reflexivity|]. done.
Qed.

(** Close is served while a fetch is in flight; the goroutine can still
    hand over its result. *)
Lemma sub_fetch_goroutine_can_finish_witness :
  ∃ s, run Subscribe scenario_more.close_during_fetch = Some s
       ∧ at_ s = Returned
       ∧ ∃ s', step s (FetchReturns scenario.fetch1) = Some s'
               ∧ fetching s' = 0%nat.
Proof.
  eexists. split; [vm_compute; reflexivity|]. split; [reflexivity|].
  destruct (sub_fetch_goroutine_can_finish scenario_more.close_during_fetch
              (default Subscribe (run Subscribe scenario_more.close_during_fetch))
              eq_refl eq_refl scenario.fetch1) as (s' & Hs & Hf & _).
  exists s'. split; [exact Hs|exact Hf].
Defined.

End sub_goroutine.

Section subscription_close.
Import subscription.

Lemma fetch_errs_snoc evs ev :
  fetch_errs (evs ++ [ev])
  = fetch_errs evs ++ match ev with FetchReturns _ _ e _ => [e] | _ => [] end.
Proof. unfold fetch_errs. rewrite omap_app. by destruct ev. Qed.

Lemma subscription_close_inv evs s :
  run Subscribe evs = Some s →
  err s = default None (last (fetch_errs evs))
  ∧ match at_ s with
    | Select | InFetch => closer s = sub.NotCalled ∨ closer s = sub.SendClosing
    | SendErr => closer s = sub.RecvErr
    | CloseUpdates | Returned => closer s = sub.Closed (err s)
    end.
Proof.
  revert evs s. apply run_of_ind; [by split; [|left]|].
  intros evs s ev s' _ [Herr Hpc] Hstep. rewrite fetch_errs_snoc.
  subscription_step_inv Hstep; cbn in *; rewrite ?app_nil_r, ?last_snoc; auto.
  destruct at_0; intuition congruence.
Qed.

Lemma subscription_closed_run s evs s' :
  at_ s ≠ Select → at_ s ≠ InFetch → run s evs = Some s' →
  at_ s' ≠ Select ∧ at_ s' ≠ InFetch ∧ delivered s' = delivered s.
Proof.
  intros Hat Hat'. revert evs s'. apply run_of_ind; [done|].
  intros evs s1 ev s2 _ (H1 & H2 & Hd) Hstep. rewrite <-Hd.
  clear -H1 H2 Hstep. subscription_step_inv Hstep; cbn in *; done.
Qed.

(** X15. src/subscription.go: Close returns only after the loop has taken
    the closing case, which it cannot do while it is inside Fetch; what
    Close returns is the error of the last fetch made, nil when that fetch
    succeeded or none was made; and once Close has returned nothing more is
    delivered. *)
Theorem subscription_Close_returns_last_fetch_err evs s :
  run Subscribe evs = Some s →
  err s = default None (last (fetch_errs evs))
  ∧ (at_ s = InFetch →
       step s RecvClosing = None ∧ step s SendUpdate = None
       ∧ ∀ e, closer s ≠ sub.Closed e)
  ∧ (∀ e, closer s = sub.Closed e →
       e = default None (last (fetch_errs evs))
       ∧ (at_ s = CloseUpdates ∨ at_ s = Returned)
       ∧ ∀ evs' s', run s evs' = Some s' → delivered s' = delivered s).
Proof.
  intros Hrun. destruct (subscription_close_inv _ _ Hrun) as [Herr Hpc].
  split; [exact Herr|]. split.
  - intros Hat. rewrite Hat in Hpc. unfold step. rewrite Hat.
    repeat (split; [done|]). intros e. intuition congruence.
  - intros e He. rewrite He in Hpc.
    assert (at_ s = CloseUpdates ∨ at_ s = Returned) as Hat
      by (destruct (at_ s); intuition congruence).
    split; [destruct Hat as [Hat|Hat]; rewrite Hat in Hpc; congruence|].
    split; [exact Hat|]. intros evs' s' Hrun'.
    apply (subscription_closed_run s evs' s'); [| |done];
      destruct Hat as [-> | ->]; done.
Qed.

(** A failure, a successful retry, then Close: Close returns nil. *)
Lemma subscription_Close_returns_last_fetch_err_witness :
  ∃ s, run Subscribe scenario_more.subscription_recovered = Some s
       ∧ closer s = sub.Closed None ∧ err s = None.
Proof.
  eexists. split; [vm_compute; reflexivity|]. split; [reflexivity|].
  refine (proj1 (subscription_Close_returns_last_fetch_err
                   scenario_more.subscription_recovered _ _)).
  vm_compute. reflexivity.
Defined.

End subscription_close.
